(** * Cancelable data-loading hooks of React-SOLID-Principles

    A shallow embedding of the data-loading code of the repository:

    - [UseQuery]    : the generic hook [useQuery] (srp/hooks/useQuery.ts),
    - [UseLoadData] : the hook [useLoadData] (dip/hooks/useLoadData.ts),
    - [Fetchers]    : [fetchUsers] (srp/services/user.ts) and
                      [UserApiService.getUsers] (dip/services/UserApiService.ts),
    - [UseGetUser]  : the hook [useGetUser] (srp/hooks/useGetUser.ts).

    and of the code around it: the components that render [useLoadData]
    ([DipView]), the earlier [useGetUser] that fetches on its own
    ([UseGetUserInline]), [MenuApiService] ([Menus]), the logger and the
    players of the ISP demo ([Isp]), the uploader and its storage
    providers ([Upload]), the button themes ([ButtonTheme]) and the modal
    ([Modal]).

    An [async] function is split at its single [await]: a synchronous
    prefix, run when the effect runs, and a continuation, run when the
    awaited promise settles.  Statements are functions from the state cells
    of the hook to the new cells and a completion (normal, thrown, or an
    early [return]), so that [try]/[catch]/[finally] keeps the meaning it
    has in JavaScript.  The state setters of one synchronous block are
    applied together (React 18 batches them), hence the observable points
    are the states between two events. *)

From Stdlib Require Import ZArith DecimalString.
From stdpp Require Import base list strings gmap.

Local Open Scope string_scope.
Set Warnings "-register-all".

(** ** JavaScript values, thrown values, completions *)

Module Js.

(** What [response.json()] can produce, and what a [throw] can carry. *)
Inductive JsValue : Type :=
| JUndefined
| JNull
| JBool (b : bool)
| JNum (n : Z)
| JStr (s : string)
| JArr (items : list JsValue)
| JObj (props : list (string * JsValue)).

(** A thrown value is an [Error] object (with its [name] and [message])
    or anything else. *)
Inductive Thrown : Type :=
| ErrorObj (name message : string)
| NonError (v : JsValue).

(** [error instanceof Error] *)
Definition instanceof_Error (error : Thrown) : bool :=
  match error with
  | ErrorObj _ _ => true
  | NonError _ => false
  end.

(** How a promise settles. *)
Inductive Settlement (A : Type) : Type :=
| Fulfilled (a : A)
| Rejected (e : Thrown).
Arguments Fulfilled {A} a.
Arguments Rejected {A} e.

(** How a block of statements completes. *)
Inductive completion (A : Type) : Type :=
| Normal (a : A)
| Throw (e : Thrown)
| Return.
Arguments Normal {A} a.
Arguments Throw {A} e.
Arguments Return {A}.

(** A statement over the state cells [S]. *)
Definition Stmt (S A : Type) : Type := S -> S * completion A.

Definition ret {S A} (a : A) : Stmt S A := fun s => (s, Normal a).

Definition throw {S A} (e : Thrown) : Stmt S A := fun s => (s, Throw e).

Definition return_ {S A} : Stmt S A := fun s => (s, Return).

Definition bind {S A B} (m : Stmt S A) (k : A -> Stmt S B) : Stmt S B :=
  fun s =>
    match m s with
    | (s1, Normal a) => k a s1
    | (s1, Throw e) => (s1, Throw e)
    | (s1, Return) => (s1, Return)
    end.

(** [try { body } catch (e) { handler e } finally { fin }]: the handler
    runs on a throw of the body, the finaliser runs in every case, and an
    abrupt completion of the finaliser replaces the pending one. *)
Definition try_catch_finally {S A}
    (body : Stmt S A) (handler : Thrown -> Stmt S A) (fin : Stmt S unit)
  : Stmt S A :=
  fun s =>
    let '(s1, c1) := body s in
    let '(s2, c2) := match c1 with
                     | Throw e => handler e s1
                     | _ => (s1, c1)
                     end in
    let '(s3, c3) := fin s2 in
    match c3 with
    | Normal _ => (s3, c2)
    | Throw e => (s3, Throw e)
    | Return => (s3, Return)
    end.

(** [await p] once [p] has settled. *)
Definition await {S A} (p : Settlement A) : Stmt S A :=
  match p with
  | Fulfilled a => ret a
  | Rejected e => throw e
  end.

(** [if (c) stmt;] *)
Definition when {S} (c : bool) (stmt : Stmt S unit) : Stmt S unit :=
  if c then stmt else ret tt.

(** An [async] function never throws to its caller: its promise is
    rejected exactly when the body completes with a throw. *)
Definition escapes {A} (c : completion A) : option Thrown :=
  match c with
  | Throw e => Some e
  | _ => None
  end.

End Js.

Export Js.

Declare Scope stmt_scope.
Delimit Scope stmt_scope with stmt.
Notation "x <- m ;; k" := (bind m (fun x => k))
  (at level 100, m at next level, right associativity) : stmt_scope.
Notation "m ;; k" := (bind m (fun _ => k))
  (at level 100, right associativity) : stmt_scope.

(** ** useQuery *)

Module UseQuery.
Section WithPayload.

(** The payload type [T] of the hook. *)
Context {T : Type}.

(** [QueryResult<T>]; [data : T | null]. *)
Record QueryResult : Type := {
  loading : bool;
  data : option T;
  errors : list string
}.

Definition setLoading (b : bool) : Stmt QueryResult unit :=
  fun q => ({| loading := b; data := data q; errors := errors q |}, Normal tt).

Definition setData (d : option T) : Stmt QueryResult unit :=
  fun q => ({| loading := loading q; data := d; errors := errors q |}, Normal tt).

Definition setErrors (es : list string) : Stmt QueryResult unit :=
  fun q => ({| loading := loading q; data := data q; errors := es |}, Normal tt).

(** What calling [fetcher({ signal })] does: the call throws, or it
    returns a promise whose settlement may depend on whether the signal
    has been aborted by then. *)
Inductive Fetcher : Type :=
| ThrowsSync (e : Thrown)
| Async (settle : bool -> Settlement T).

(** [error instanceof Error && error.name === 'AbortError'] *)
Definition is_AbortError (error : Thrown) : bool :=
  instanceof_Error error &&
  match error with
  | ErrorObj name _ => String.eqb name "AbortError"
  | NonError _ => false
  end.

(** [error instanceof Error ? error.message : 'An unknown error occurred'] *)
Definition errorMessage (error : Thrown) : string :=
  match error with
  | ErrorObj _ message => message
  | NonError _ => "An unknown error occurred"
  end.

(** The [catch] block of [loadData]. *)
Definition on_error (error : Thrown) : Stmt QueryResult unit :=
  if is_AbortError error then return_
  else (setErrors [errorMessage error] ;; setData None)%stmt.

(** The [finally] block of [loadData]. *)
Definition on_finally : Stmt QueryResult unit := setLoading false.

(** [await fetcher({ signal })], call and settlement together. *)
Definition call_and_await (f : Fetcher) (signal_aborted : bool)
  : Stmt QueryResult T :=
  match f with
  | ThrowsSync e => throw e
  | Async settle => await (settle signal_aborted)
  end.

(** The whole body of [loadData], as if it ran without suspending. *)
Definition loadData (f : Fetcher) (signal_aborted : bool)
  : Stmt QueryResult unit :=
  try_catch_finally
    (setLoading true ;;
     result <- call_and_await f signal_aborted ;;
     setData (Some result) ;;
     setErrors [])%stmt
    on_error
    on_finally.

(** [loadData()] up to its [await]: a fetcher that throws is handled on
    the spot, a promise suspends the function after [setLoading(true)]. *)
Definition loadData_start (f : Fetcher) : Stmt QueryResult unit :=
  match f with
  | ThrowsSync _ => loadData f false
  | Async _ => setLoading true
  end.

(** [loadData] from its [await] on, once the promise has settled. *)
Definition loadData_resume (p : Settlement T) : Stmt QueryResult unit :=
  try_catch_finally
    (result <- await p ;;
     setData (Some result) ;;
     setErrors [])%stmt
    on_error
    on_finally.

(** One run of the effect: its [AbortController] and the promise it
    still waits for. *)
Record Activation : Type := {
  aborted : bool;
  inflight : option (bool -> Settlement T)
}.

(** The hook instance: the three state cells and every effect run so
    far, oldest first. *)
Record Hook : Type := {
  slots : QueryResult;
  effects : list Activation
}.

(** [useState(true)], [useState(null)], [useState([])]; no effect yet. *)
Definition init : Hook :=
  {| slots := {| loading := true; data := None; errors := [] |};
     effects := [] |}.

(** [abortController.abort()] *)
Definition abort (a : Activation) : Activation :=
  {| aborted := true; inflight := inflight a |}.

(** The cleanup React calls is the one returned by the latest run. *)
Definition cleanup (l : list Activation) : list Activation :=
  alter abort (length l - 1) l.

(** What happens to a hook instance.  The cells outlive every effect
    run; the setters write them whenever [loadData] calls them. *)
Inductive Event : Type :=
| Start (f : Fetcher)   (* the effect runs (mount, or [fetcher] changed) *)
| Stop                  (* the cleanup runs (unmount, also the simulated
                           one of Strict Mode) *)
| Settle (i : nat).     (* the promise of run [i] settles *)

Definition step (ev : Event) (h : Hook) : Hook :=
  match ev with
  | Start f =>
      (* React runs the previous cleanup before it re-runs the effect *)
      {| slots := fst (loadData_start f (slots h));
         effects := cleanup (effects h) ++
                    [ {| aborted := false;
                         inflight := match f with
                                     | ThrowsSync _ => None
                                     | Async settle => Some settle
                                     end |} ] |}
  | Stop => {| slots := slots h; effects := cleanup (effects h) |}
  | Settle i =>
      match effects h !! i with
      | Some a =>
          match inflight a with
          | Some settle =>
              {| slots := fst (loadData_resume (settle (aborted a)) (slots h));
                 effects := <[ i := {| aborted := aborted a; inflight := None |} ]>
                              (effects h) |}
          | None => h
          end
      | None => h
      end
  end.

Definition run (tr : list Event) (h : Hook) : Hook :=
  fold_left (fun h ev => step ev h) tr h.

(** A fetcher honours the signal when, once aborted, its promise rejects
    with an [AbortError] (as [fetch] does). *)
Definition honours (settle : bool -> Settlement T) : Prop :=
  exists message, settle true = Rejected (ErrorObj "AbortError" message).

Definition honouring (ev : Event) : Prop :=
  match ev with
  | Start (Async settle) => honours settle
  | _ => True
  end.

(** Run [i] has been stopped; it waits for [settle] unless it has settled. *)
Definition stopped (i : nat) (settle : bool -> Settlement T) (h : Hook)
  : Prop :=
  exists a, effects h !! i = Some a /\ aborted a = true /\
            (inflight a = None \/ inflight a = Some settle).

(** Every run but the latest has been aborted, and every promise still
    waited for honours its signal. *)
Definition superseded_aborted (h : Hook) : Prop :=
  forall i a, effects h !! i = Some a ->
    (S i < length (effects h) -> aborted a = true) /\
    (forall settle, inflight a = Some settle -> honours settle).

(** [data] and [errors] are not both present. *)
Definition consistent (q : QueryResult) : Prop :=
  errors q = [] \/ (data q = None /\ exists m, errors q = [m]).

End WithPayload.
Arguments QueryResult : clear implicits.
Arguments Fetcher : clear implicits.
Arguments Activation : clear implicits.
Arguments Hook : clear implicits.
Arguments Event : clear implicits.
End UseQuery.

(** ** useLoadData *)

Module UseLoadData.
Section WithPayload.

Context {T : Type}.

(** The three cells: [data : T | null], [loading], [error : string | null]. *)
Record LoadState : Type := {
  data : option T;
  loading : bool;
  error : option string
}.

Definition setData (d : option T) : Stmt LoadState unit :=
  fun q => ({| data := d; loading := loading q; error := error q |}, Normal tt).

Definition setLoading (b : bool) : Stmt LoadState unit :=
  fun q => ({| data := data q; loading := b; error := error q |}, Normal tt).

Definition setError (e : option string) : Stmt LoadState unit :=
  fun q => ({| data := data q; loading := loading q; error := e |}, Normal tt).

(** What calling [fetcher()] does; this fetcher receives no signal. *)
Inductive Fetcher : Type :=
| ThrowsSync (e : Thrown)
| Async (p : Settlement T).

(** [e instanceof Error ? e.message : 'Failed to fetch data'] *)
Definition errorMessage (e : Thrown) : string :=
  match e with
  | ErrorObj _ message => message
  | NonError _ => "Failed to fetch data"
  end.

(** The [try]/[catch]/[finally] of [load] from the settlement on;
    [isMounted] is the value the variable has when the block runs. *)
Definition guarded (p : Settlement T) (isMounted : bool)
  : Stmt LoadState unit :=
  try_catch_finally
    (result <- await p ;; when isMounted (setData (Some result)))%stmt
    (fun e => when isMounted (setError (Some (errorMessage e))))
    (when isMounted (setLoading false)).

(** [load()] up to its [await].  A fetcher that throws is handled on the
    spot, before any cleanup can have run. *)
Definition load_start (f : Fetcher) : Stmt LoadState unit :=
  (setLoading true ;;
   setError None ;;
   match f with
   | ThrowsSync e => guarded (Rejected e) true
   | Async _ => ret tt
   end)%stmt.

(** [load] from its [await] on. *)
Definition load_resume (p : Settlement T) (isMounted : bool)
  : Stmt LoadState unit :=
  guarded p isMounted.

(** One run of the effect: its [isMounted] variable and its promise. *)
Record Activation : Type := {
  isMounted : bool;
  inflight : option (Settlement T)
}.

Record Hook : Type := {
  slots : LoadState;
  effects : list Activation
}.

Definition init : Hook :=
  {| slots := {| data := None; loading := true; error := None |};
     effects := [] |}.

(** [isMounted = false] *)
Definition unmount (a : Activation) : Activation :=
  {| isMounted := false; inflight := inflight a |}.

Definition cleanup (l : list Activation) : list Activation :=
  alter unmount (length l - 1) l.

Inductive Event : Type :=
| Start (f : Fetcher)   (* the effect runs (mount, or [deps] changed) *)
| Stop                  (* the cleanup runs *)
| Settle (i : nat).     (* the promise of run [i] settles *)

Definition step (ev : Event) (h : Hook) : Hook :=
  match ev with
  | Start f =>
      {| slots := fst (load_start f (slots h));
         effects := cleanup (effects h) ++
                    [ {| isMounted := true;
                         inflight := match f with
                                     | ThrowsSync _ => None
                                     | Async p => Some p
                                     end |} ] |}
  | Stop => {| slots := slots h; effects := cleanup (effects h) |}
  | Settle i =>
      match effects h !! i with
      | Some a =>
          match inflight a with
          | Some p =>
              {| slots := fst (load_resume p (isMounted a) (slots h));
                 effects := <[ i := {| isMounted := isMounted a; inflight := None |} ]>
                              (effects h) |}
          | None => h
          end
      | None => h
      end
  end.

Definition run (tr : list Event) (h : Hook) : Hook :=
  fold_left (fun h ev => step ev h) tr h.

(** The cleanup of run [i] has run: its [isMounted] is false. *)
Definition torn_down (i : nat) (h : Hook) : Prop :=
  exists a, effects h !! i = Some a /\ isMounted a = false.

End WithPayload.
Arguments LoadState : clear implicits.
Arguments Fetcher : clear implicits.
Arguments Activation : clear implicits.
Arguments Hook : clear implicits.
Arguments Event : clear implicits.
End UseLoadData.

(** ** The example fetchers *)

Module Fetchers.

(** What [fetch] resolves with, as far as the fetchers look at it. *)
Record Response : Type := {
  ok : bool;
  status : nat;
  statusText : string;
  json : Settlement JsValue   (* [response.json()] *)
}.

(** [Array.isArray(v)] *)
Definition isArray (v : JsValue) : bool :=
  match v with
  | JArr _ => true
  | _ => false
  end.

(** Truthiness, as [||] tests it. *)
Definition truthy (v : JsValue) : bool :=
  match v with
  | JUndefined | JNull => false
  | JBool b => b
  | JNum n => negb (n =? 0)%Z
  | JStr s => negb (String.eqb s EmptyString)
  | JArr _ | JObj _ => true
  end.

(** [a || b] *)
Definition or_else (a b : JsValue) : JsValue :=
  if truthy a then a else b.

Fixpoint lookup_prop (key : string) (props : list (string * JsValue))
  : JsValue :=
  match props with
  | [] => JUndefined
  | (k, v) :: rest => if String.eqb k key then v else lookup_prop key rest
  end.

(** [v.key] for a key that is neither an index nor a built-in property:
    a [TypeError] on [null] and [undefined], the own property of an
    object, [undefined] otherwise. *)
Definition get_property {S} (v : JsValue) (key : string) : Stmt S JsValue :=
  match v with
  | JUndefined =>
      throw (ErrorObj "TypeError"
               ("Cannot read properties of undefined (reading '" +:+ key +:+ "')"))
  | JNull =>
      throw (ErrorObj "TypeError"
               ("Cannot read properties of null (reading '" +:+ key +:+ "')"))
  | JObj props => ret (lookup_prop key props)
  | _ => ret JUndefined
  end.

(** [`${n}`] for a status code. *)
Definition number_to_string (n : nat) : string :=
  NilZero.string_of_uint (Nat.to_uint n).

(** The promise an [async] function returns for a given completion of
    its body. *)
Definition promise_of (c : completion JsValue) : Settlement JsValue :=
  match c with
  | Normal v => Fulfilled v
  | Throw e => Rejected e
  | Return => Fulfilled JUndefined
  end.

(** [fetchUsers], given how [fetch(url, { signal })] settles. *)
Definition fetchUsers (net : Settlement Response) : Settlement JsValue :=
  promise_of (snd ((
    response <- await net ;;
    if negb (ok response) then
      throw (ErrorObj "Error"
               ("HTTP Error: " +:+ number_to_string (status response)
                  +:+ " " +:+ statusText response))
    else
      result <- await (json response) ;;
      (* Ensure data is an array *)
      if isArray result then ret result
      else (d <- get_property result "data" ;; ret (or_else d (JArr [])))
  )%stmt tt)).

(** [UserApiService.getUsers], given how [fetch(url)] settles. *)
Definition getUsers (net : Settlement Response) : Settlement JsValue :=
  promise_of (snd ((
    response <- await net ;;
    if negb (ok response) then
      throw (ErrorObj "Error" "Network response was not ok")
    else await (json response)
  )%stmt tt)).

End Fetchers.

(** ** useGetUser *)

Module UseGetUser.
Import Fetchers.

(** [UseUserResult]; at run time [data] holds whatever [fetchUsers]
    resolved with. *)
Record UseUserResult : Type := {
  loading : bool;
  data : JsValue;
  errors : list string
}.

Definition setLoading (b : bool) : Stmt UseUserResult unit :=
  fun q => ({| loading := b; data := data q; errors := errors q |}, Normal tt).

Definition setData (d : JsValue) : Stmt UseUserResult unit :=
  fun q => ({| loading := loading q; data := d; errors := errors q |}, Normal tt).

Definition setErrors (es : list string) : Stmt UseUserResult unit :=
  fun q => ({| loading := loading q; data := data q; errors := es |}, Normal tt).

(** [error instanceof Error && error.name === 'AbortError'] *)
Definition is_AbortError (error : Thrown) : bool :=
  instanceof_Error error &&
  match error with
  | ErrorObj name _ => String.eqb name "AbortError"
  | NonError _ => false
  end.

(** [error instanceof Error ? error.message : 'An unknown error occurred'] *)
Definition errorMessage (error : Thrown) : string :=
  match error with
  | ErrorObj _ message => message
  | NonError _ => "An unknown error occurred"
  end.

(** [loadUsers] from its [await] on; nothing precedes the [await], and
    [fetchUsers] is [async], so the call itself cannot throw. *)
Definition loadUsers_resume (p : Settlement JsValue)
  : Stmt UseUserResult unit :=
  try_catch_finally
    (users <- await p ;;
     setData users ;;
     setErrors [])%stmt
    (fun error =>
       if is_AbortError error then return_
       else (setErrors [errorMessage error] ;; setData (JArr []))%stmt)
    (setLoading false).

(** One run of the effect: its [AbortController], and how the [fetch]
    it started settles, given whether the signal is aborted by then. *)
Record Activation : Type := {
  aborted : bool;
  inflight : option (bool -> Settlement Response)
}.

Record Hook : Type := {
  slots : UseUserResult;
  effects : list Activation
}.

(** [useState(true)], [useState([])], [useState([])] *)
Definition init : Hook :=
  {| slots := {| loading := true; data := JArr []; errors := [] |};
     effects := [] |}.

Definition abort (a : Activation) : Activation :=
  {| aborted := true; inflight := inflight a |}.

Definition cleanup (l : list Activation) : list Activation :=
  alter abort (length l - 1) l.

Inductive Event : Type :=
| Start (net : bool -> Settlement Response)  (* the effect runs *)
| Stop                                       (* the cleanup runs *)
| Settle (i : nat).                          (* [fetchUsers] of run [i] settles *)

Definition step (ev : Event) (h : Hook) : Hook :=
  match ev with
  | Start net =>
      {| slots := slots h;
         effects := cleanup (effects h) ++
                    [ {| aborted := false; inflight := Some net |} ] |}
  | Stop => {| slots := slots h; effects := cleanup (effects h) |}
  | Settle i =>
      match effects h !! i with
      | Some a =>
          match inflight a with
          | Some net =>
              {| slots := fst (loadUsers_resume (fetchUsers (net (aborted a)))
                                 (slots h));
                 effects := <[ i := {| aborted := aborted a; inflight := None |} ]>
                              (effects h) |}
          | None => h
          end
      | None => h
      end
  end.

Definition run (tr : list Event) (h : Hook) : Hook :=
  fold_left (fun h ev => step ev h) tr h.

End UseGetUser.

(** ** Sample inputs *)

Module Samples.

(** The promise of a fetcher that honours its signal, as [fetch] does. *)
Definition polite (v : nat) : bool -> Settlement nat :=
  fun signal_aborted =>
    if signal_aborted
    then Rejected (ErrorObj "AbortError" "The operation was aborted.")
    else Fulfilled v.

(** The promise of a fetcher that never looks at its signal. *)
Definition deaf (v : nat) : bool -> Settlement nat := fun _ => Fulfilled v.

(** A [200 OK] response with the given body. *)
Definition ok_response (body : JsValue) : Fetchers.Response :=
  {| Fetchers.ok := true; Fetchers.status := 200;
     Fetchers.statusText := "OK"; Fetchers.json := Fulfilled body |}.

(** A [404 Not Found] response. *)
Definition not_found : Fetchers.Response :=
  {| Fetchers.ok := false; Fetchers.status := 404;
     Fetchers.statusText := "Not Found";
     Fetchers.json := Fulfilled (JObj [("message", JStr "no such route")]) |}.

(** A user as the API sends it. *)
Definition alice : JsValue :=
  JObj [("id", JNum 1); ("fullName", JStr "Alice");
        ("email", JStr "alice@example.com")].

End Samples.

(** ** The components that render the hooks *)

Module DipView.
Section WithItem.

(** The items of the list ([User] or [Menu]). *)
Context {U : Type}.

(** What [UserList] and [MenuList] return. *)
Inductive View : Type :=
| LoadingText                    (* [<p>Loading ...</p>] *)
| ErrorText (message : string)   (* [<p>{error}</p>] *)
| ItemList (items : list U).     (* the container with one [<li>] per item *)

(** [if (loading) ..; if (error) ..; return ..users?.map(..)..]: a string
    is truthy unless it is empty, and [users?.map] of [null] renders no
    item. *)
Definition render (q : UseLoadData.LoadState (list U)) : View :=
  if UseLoadData.loading q then LoadingText
  else
    match UseLoadData.error q with
    | Some message =>
        if negb (String.eqb message EmptyString) then ErrorText message
        else ItemList (default [] (UseLoadData.data q))
    | None => ItemList (default [] (UseLoadData.data q))
    end.

(** [UserList] (dip/components/UserList.tsx) *)
Definition UserList := render.

(** [MenuList] (dip/components/MenuList.tsx) *)
Definition MenuList := render.

End WithItem.
Arguments View : clear implicits.
End DipView.

Module UseLoadDataInvariants.
Section WithPayload.
Import UseLoadData.
Context {T : Type}.

(** Every run but the latest has [isMounted] false. *)
Definition only_latest_mounted (h : Hook T) : Prop :=
  forall i a, effects h !! i = Some a ->
    S i < length (effects h) -> isMounted a = false.

(** While the latest run is mounted and waits for its promise, the cells
    are as [load] left them before its [await]. *)
Definition pending_clean (h : Hook T) : Prop :=
  forall a p,
    effects h !! (length (effects h) - 1) = Some a ->
    isMounted a = true -> inflight a = Some p ->
    loading (slots h) = true /\ error (slots h) = None.

(** [loading] true goes with [error] null. *)
Definition loading_without_error (q : LoadState T) : Prop :=
  loading q = true -> error q = None.

End WithPayload.
End UseLoadDataInvariants.

(** ** useGetUser before [fetchUsers] was moved out of it *)

Module UseGetUserInline.
Import Fetchers UseGetUser.

(** The [fetchUsers] closure of the hook from its first [await] on, given
    how [fetch(url, { signal })] settles; no setter runs between its two
    [await]s. *)
Definition fetchUsers_resume (net : Settlement Response)
  : Stmt UseUserResult unit :=
  try_catch_finally
    (response <- await net ;;
     if negb (ok response) then
       throw (ErrorObj "Error"
                ("HTTP Error: " +:+ number_to_string (status response)
                   +:+ " " +:+ statusText response))
     else
       result <- await (json response) ;;
       (* Ensure data is an array *)
       users <- (if isArray result then ret result
                 else (d <- get_property result "data" ;;
                       ret (or_else d (JArr [])))) ;;
       setData users ;;
       setErrors [])%stmt
    (fun error =>
       (* Ignore abort errors (component unmounted) *)
       if is_AbortError error then return_
       else (setErrors [errorMessage error] ;; setData (JArr []))%stmt)
    (setLoading false).

End UseGetUserInline.

(** ** MenuApiService *)

Module Menus.
Import Fetchers.

Section Runtime.

(** [Number::toString] beyond the safe integers, where the digits printed
    are the shortest that give back the double (and turn to exponent form
    from [1e21] on): left to the runtime. *)
Variable Number_toString_unsafe : Z -> string.

(** [Number::toString] for an integral number: the plain decimal digits
    for a safe integer. *)
Definition Number_toString (n : Z) : string :=
  if (Z.abs n <=? 2 ^ 53)%Z then NilZero.string_of_int (Z.to_int n)
  else Number_toString_unsafe n.

(** Whether a parsed object has an own property of that name. *)
Definition has_own (key : string) (props : list (string * JsValue)) : bool :=
  existsb (fun kv => String.eqb (fst kv) key) props.

(** [ToString(v)] of a parsed value, [None] where it throws a
    [TypeError]: an object with an own [toString] property, which is not
    callable and hides [Object.prototype.toString], cannot be converted;
    an array joins the strings of its elements. *)
Fixpoint to_string (v : JsValue) : option string :=
  match v with
  | JUndefined => Some "undefined"
  | JNull => Some "null"
  | JBool true => Some "true"
  | JBool false => Some "false"
  | JNum n => Some (Number_toString n)
  | JStr s => Some s
  | JArr items =>
      (* [Array.prototype.join]: [null] and [undefined] give nothing *)
      (fix join (l : list JsValue) : option string :=
         match l with
         | [] => Some EmptyString
         | x :: rest =>
             match match x with
                   | JUndefined | JNull => Some EmptyString
                   | _ => to_string x
                   end with
             | None => None
             | Some first =>
                 match rest with
                 | [] => Some first
                 | _ :: _ =>
                     match join rest with
                     | Some others => Some (first +:+ "," +:+ others)
                     | None => None
                     end
                 end
             end
         end) items
  | JObj props =>
      if has_own "toString" props then None else Some "[object Object]"
  end.

(** [`${v}`] *)
Definition template {S} (v : JsValue) : Stmt S string :=
  match to_string v with
  | Some s => ret s
  | None =>
      throw (ErrorObj "TypeError" "Cannot convert object to primitive value")
  end.

(** [data.slice(0, 5)] for a parsed body: arrays and strings have the
    method, [null] has no properties, nothing else in a parsed body is
    callable. *)
Definition slice_0_5 {S} (data : JsValue) : Stmt S JsValue :=
  match data with
  | JArr items => ret (JArr (take 5 items))
  | JStr s => ret (JStr (String.substring 0 5 s))
  | JUndefined =>
      throw (ErrorObj "TypeError"
               "Cannot read properties of undefined (reading 'slice')")
  | JNull =>
      throw (ErrorObj "TypeError"
               "Cannot read properties of null (reading 'slice')")
  | _ => throw (ErrorObj "TypeError" "data.slice is not a function")
  end.

(** [(item) => ({ id: item.id, title: item.title, path: `/menu/${item.id}` })] *)
Definition to_menu {S} (item : JsValue) : Stmt S JsValue :=
  (id <- get_property item "id" ;;
   title <- get_property item "title" ;;
   id' <- get_property item "id" ;;
   shown <- template id' ;;
   ret (JObj [("id", id); ("title", title);
              ("path", JStr ("/menu/" +:+ shown))]))%stmt.

(** The callback applied to each element in turn. *)
Fixpoint map_items {S} (f : JsValue -> Stmt S JsValue) (items : list JsValue)
  : Stmt S (list JsValue) :=
  match items with
  | [] => ret []
  | x :: rest =>
      (y <- f x ;; ys <- map_items f rest ;; ret (y :: ys))%stmt
  end.

(** [sliced.map(callback)]; a string has no [map]. *)
Definition map_menus {S} (sliced : JsValue) : Stmt S JsValue :=
  match sliced with
  | JArr items => (menus <- map_items to_menu items ;; ret (JArr menus))%stmt
  | _ => throw (ErrorObj "TypeError" "data.slice(...).map is not a function")
  end.

(** [MenuApiService.getMenus], given how [fetch(url)] settles. *)
Definition getMenus (net : Settlement Response) : Settlement JsValue :=
  promise_of (snd ((
    response <- await net ;;
    if negb (ok response) then
      throw (ErrorObj "Error" "Network response was not ok")
    else
      data <- await (json response) ;;
      sliced <- slice_0_5 data ;;
      map_menus sliced
  )%stmt tt)).

End Runtime.
End Menus.

(** ** The logger of the ISP demo and the players that write to it *)

Module Isp.

(** The [ConsoleLogger] of the demo together with the [logs] state of the
    component, whose setter is the logger's [_onLog]. *)
Record Demo : Type := {
  _logs : list string;   (* [ConsoleLogger._logs] *)
  logs : list string     (* [useState<string[]>([])] *)
}.

Definition init : Demo := {| _logs := []; logs := [] |}.

(** [setLogs] *)
Definition _onLog (l : list string) : Stmt Demo unit :=
  fun d => ({| _logs := _logs d; logs := l |}, Normal tt).

(** [ConsoleLogger.log]: push, then hand a copy to [_onLog]. *)
Definition log (message : string) : Stmt Demo unit :=
  fun d =>
    let pushed := {| _logs := _logs d ++ [message]; logs := logs d |} in
    _onLog (_logs pushed) pushed.

(** [ConsoleLogger.clear] *)
Definition clear : Stmt Demo unit :=
  fun d => _onLog [] {| _logs := []; logs := logs d |}.

(** The methods of the four players; [loadMedia] logs before it returns
    its promise, whose settlement changes nothing. *)
Inductive Call : Type :=
| Fat_playAudio
| Fat_playVideo
| Fat_displaySubtitles
| Fat_loadMedia (url : string)
| Audio_playAudio
| Audio_loadMedia (url : string)
| Video_playAudio
| Video_playVideo
| Video_displaySubtitles
| Video_loadMedia (url : string)
| Subtitle_displaySubtitles
| Logger_clear.

Definition perform (c : Call) : Stmt Demo unit :=
  match c with
  | Fat_playAudio => log "FatAudioPlayer: Playing audio..."
  | Fat_playVideo => log "FatAudioPlayer: This player cannot play videos."
  | Fat_displaySubtitles =>
      log "FatAudioPlayer: This player cannot display subtitles."
  | Fat_loadMedia url =>
      log ("FatAudioPlayer: Loading media from " +:+ url +:+ "...")
  | Audio_playAudio => log "FineGrainedAudioPlayer: Playing audio..."
  | Audio_loadMedia url =>
      log ("FineGrainedAudioPlayer: Loading media from " +:+ url +:+ "...")
  | Video_playAudio =>
      log "FineGrainedVideoPlayer: Playing accompanying audio..."
  | Video_playVideo => log "FineGrainedVideoPlayer: Playing video..."
  | Video_displaySubtitles =>
      log "FineGrainedVideoPlayer: Displaying subtitles..."
  | Video_loadMedia url =>
      log ("FineGrainedVideoPlayer: Loading media from " +:+ url +:+ "...")
  | Subtitle_displaySubtitles =>
      log "StandaloneSubtitlePlayer: Displaying subtitles..."
  | Logger_clear => clear
  end.

Definition run (calls : list Call) (d : Demo) : Demo :=
  fold_left (fun d c => fst (perform c d)) calls d.

End Isp.

(** ** The storage providers and the uploader *)

Module Upload.

(** [File], as far as the providers look at it. *)
Record File : Type := { name : string }.

(** The console: one entry per call, holding the arguments printed. *)
Definition Console : Type := list (list string).

Definition console_log (args : list string) : Stmt Console unit :=
  fun c => ((c ++ [args])%list, Normal tt).

(** [file.name], where [file] is [undefined] for [files[0]] of an empty
    [FileList]. *)
Definition file_name {S} (file : option File) : Stmt S string :=
  match file with
  | Some f => ret (name f)
  | None =>
      throw (ErrorObj "TypeError"
               "Cannot read properties of undefined (reading 'name')")
  end.

(** [StorageProvider.upload]; being [async], a throw of the body is the
    rejection of its promise. *)
Definition StorageProvider : Type := option File -> Stmt Console string.

(** [LocalStorageProvider.upload] *)
Definition LocalStorageProvider : StorageProvider :=
  fun file =>
    (n <- file_name file ;;
     console_log ["Saving locally:"; n] ;;
     n' <- file_name file ;;
     ret ("/uploads/" +:+ n'))%stmt.

(** [S3StorageProvider.upload] *)
Definition S3StorageProvider : StorageProvider :=
  fun file =>
    (n <- file_name file ;;
     console_log ["Uploading to S3:"; n] ;;
     n' <- file_name file ;;
     ret ("https://s3.amazonaws.com/bucket/" +:+ n'))%stmt.

(** [FirebaseStorageProvider.upload] *)
Definition FirebaseStorageProvider : StorageProvider :=
  fun file =>
    (n <- file_name file ;;
     console_log ["Uploading to Firebase:"; n] ;;
     n' <- file_name file ;;
     ret ("https://firebase.storage/" +:+ n'))%stmt.

(** [handleUpload] of [AvatarUploader]; [files] is [e.target.files],
    [null] or a list that may be empty. *)
Definition handleUpload (storage : StorageProvider)
    (files : option (list File)) : Stmt Console unit :=
  match files with
  | None => return_
  | Some selected =>
      let file := selected !! 0 in
      (url <- storage file ;;
       console_log ["Uploaded to:"; url])%stmt
  end.

End Upload.

(** ** The button themes *)

Module ButtonTheme.

(** [ButtonVariantStyle] *)
Record ButtonVariantStyle : Type := {
  backgroundColor : string;
  color : string;
  hoverBackgroundColor : option string;
  activeBackgroundColor : option string
}.

(** [ButtonTheme]: the own properties of the object, by variant name. *)
Abbreviation ButtonTheme := (gmap string ButtonVariantStyle).

Definition DEFAULT_BUTTON_THEME : ButtonTheme :=
  <[ "primary" := {| backgroundColor := "#007bff"; color := "white";
                     hoverBackgroundColor := Some "#0056b3";
                     activeBackgroundColor := Some "#003d82" |} ]>
  (<[ "secondary" := {| backgroundColor := "#6c757d"; color := "white";
                        hoverBackgroundColor := Some "#545b62";
                        activeBackgroundColor := Some "#3d4147" |} ]>
  (<[ "danger" := {| backgroundColor := "#dc3545"; color := "white";
                     hoverBackgroundColor := Some "#c82333";
                     activeBackgroundColor := Some "#bd2130" |} ]> ∅)).

(** [{ ...baseTheme, ...customTheme }]: the properties of both, those of
    [customTheme] winning; [undefined] spreads to nothing, and a missing
    [baseTheme] is the default theme. *)
Definition mergeButtonThemes (customTheme baseTheme : option ButtonTheme)
  : ButtonTheme :=
  default ∅ customTheme ∪ default DEFAULT_BUTTON_THEME baseTheme.

(** The names a plain object inherits from [Object.prototype]. *)
Definition Object_prototype : list string :=
  [ "constructor"; "hasOwnProperty"; "isPrototypeOf"; "propertyIsEnumerable";
    "toLocaleString"; "toString"; "valueOf"; "__proto__";
    "__defineGetter__"; "__defineSetter__"; "__lookupGetter__";
    "__lookupSetter__" ].

(** What [theme[variant]] evaluates to. *)
Inductive Member : Type :=
| Own (style : ButtonVariantStyle)
| Inherited     (* a member of [Object.prototype], not a style *)
| Undefined.

(** [getVariantStyle]; [!variant] holds for [undefined] and for the empty
    string. *)
Definition getVariantStyle (variant : option string) (theme : ButtonTheme)
  : Member :=
  match variant with
  | None => Undefined
  | Some v =>
      if String.eqb v EmptyString then Undefined
      else match theme !! v with
           | Some style => Own style
           | None =>
               if bool_decide (v ∈ Object_prototype) then Inherited
               else Undefined
           end
  end.

(** [createThemedButton] *)
Definition createThemedButton (theme : ButtonTheme) : ButtonTheme := theme.

End ButtonTheme.

(** ** The modal *)

Module Modal.

(** The props of [Modal] that its effects and handlers read; [onClose] is
    the identity of the callback passed in. *)
Record ModalProps : Type := {
  isOpen : bool;
  closeOnBackdropClick : option bool;
  closeOnEsc : option bool;
  onClose : nat
}.

(** [DEFAULTS.MODAL_CLOSE_ON_BACKDROP_CLICK], [DEFAULTS.MODAL_CLOSE_ON_ESC],
    [KEYBOARD_KEYS.ESCAPE] *)
Definition MODAL_CLOSE_ON_BACKDROP_CLICK : bool := true.
Definition MODAL_CLOSE_ON_ESC : bool := true.
Definition ESCAPE : string := "Escape".

(** The destructuring defaults of the component. *)
Definition closeOnBackdropClick_of (p : ModalProps) : bool :=
  default MODAL_CLOSE_ON_BACKDROP_CLICK (closeOnBackdropClick p).

Definition closeOnEsc_of (p : ModalProps) : bool :=
  default MODAL_CLOSE_ON_ESC (closeOnEsc p).

(** The document as the modal touches it, and what React keeps for one
    instance of the component. *)
Record World : Type := {
  overflow : string;           (* [document.body.style.overflow] *)
  listeners : list nat;        (* the [keydown] listeners the modal added,
                                  each by the [onClose] it calls *)
  closed : list nat;           (* the calls of [onClose] so far *)
  rendered : option ModalProps;  (* the props of the last render *)
  esc_cleanup : option nat;    (* the cleanup the first effect returned *)
  overflow_cleanup : bool      (* whether the second effect returned one *)
}.

Definition init (overflow0 : string) : World :=
  {| overflow := overflow0; listeners := []; closed := [];
     rendered := None; esc_cleanup := None; overflow_cleanup := false |}.

Fixpoint remove_first (id : nat) (l : list nat) : list nat :=
  match l with
  | [] => []
  | x :: rest => if Nat.eqb x id then rest else x :: remove_first id rest
  end.

(** [() => document.removeEventListener("keydown", handleEscKey)] *)
Definition cleanup_esc (w : World) : World :=
  match esc_cleanup w with
  | Some id =>
      {| overflow := overflow w; listeners := remove_first id (listeners w);
         closed := closed w; rendered := rendered w;
         esc_cleanup := None; overflow_cleanup := overflow_cleanup w |}
  | None => w
  end.

(** [() => { document.body.style.overflow = "unset"; }] *)
Definition cleanup_overflow (w : World) : World :=
  if overflow_cleanup w then
    {| overflow := "unset"; listeners := listeners w; closed := closed w;
       rendered := rendered w; esc_cleanup := esc_cleanup w;
       overflow_cleanup := false |}
  else w.

(** The first effect: [if (!isOpen || !closeOnEsc) return;] then add the
    listener and return its removal. *)
Definition effect_esc (p : ModalProps) (w : World) : World :=
  if negb (isOpen p) || negb (closeOnEsc_of p) then w
  else
    {| overflow := overflow w;
       listeners := (listeners w ++ [onClose p])%list;
       closed := closed w; rendered := rendered w;
       esc_cleanup := Some (onClose p);
       overflow_cleanup := overflow_cleanup w |}.

(** The second effect: [if (isOpen) { ..overflow = "hidden"; return ..}] *)
Definition effect_overflow (p : ModalProps) (w : World) : World :=
  if isOpen p then
    {| overflow := "hidden"; listeners := listeners w; closed := closed w;
       rendered := rendered w; esc_cleanup := esc_cleanup w;
       overflow_cleanup := true |}
  else w.

(** [[isOpen, closeOnEsc, onClose]] and [[isOpen]] against the last render. *)
Definition esc_deps_changed (p : ModalProps) (w : World) : bool :=
  match rendered w with
  | None => true
  | Some q =>
      negb (Bool.eqb (isOpen q) (isOpen p) &&
            Bool.eqb (closeOnEsc_of q) (closeOnEsc_of p) &&
            Nat.eqb (onClose q) (onClose p))
  end.

Definition overflow_deps_changed (p : ModalProps) (w : World) : bool :=
  match rendered w with
  | None => true
  | Some q => negb (Bool.eqb (isOpen q) (isOpen p))
  end.

Definition set_rendered (r : option ModalProps) (w : World) : World :=
  {| overflow := overflow w; listeners := listeners w; closed := closed w;
     rendered := r; esc_cleanup := esc_cleanup w;
     overflow_cleanup := overflow_cleanup w |}.

Definition call_onClose (id : nat) (w : World) : World :=
  {| overflow := overflow w; listeners := listeners w;
     closed := (closed w ++ [id])%list; rendered := rendered w;
     esc_cleanup := esc_cleanup w; overflow_cleanup := overflow_cleanup w |}.

Inductive Event : Type :=
| Render (p : ModalProps)     (* the component renders with these props *)
| Unmount
| Keydown (key : string)      (* a key goes down somewhere in the document *)
| BackdropClick (on_overlay : bool)
                              (* a click reaches the overlay; [on_overlay]:
                                 [e.target === e.currentTarget] *)
| CloseClick.                 (* a click on the close button *)

Definition step (ev : Event) (w : World) : World :=
  match ev with
  | Render p =>
      (* React runs the cleanups of the effects whose dependencies
         changed, then those effects *)
      let c1 := esc_deps_changed p w in
      let c2 := overflow_deps_changed p w in
      let w := if c1 then cleanup_esc w else w in
      let w := if c2 then cleanup_overflow w else w in
      let w := if c1 then effect_esc p w else w in
      let w := if c2 then effect_overflow p w else w in
      set_rendered (Some p) w
  | Unmount => set_rendered None (cleanup_overflow (cleanup_esc w))
  | Keydown key =>
      (* [handleEscKey] of every listener *)
      fold_left (fun w id =>
                   if String.eqb key ESCAPE then call_onClose id w else w)
                (listeners w) w
  | BackdropClick on_overlay =>
      match rendered w with
      | Some p =>
          (* there is an overlay only while [isOpen] *)
          if isOpen p && (closeOnBackdropClick_of p && on_overlay)
          then call_onClose (onClose p) w else w
      | None => w
      end
  | CloseClick =>
      match rendered w with
      | Some p => if isOpen p then call_onClose (onClose p) w else w
      | None => w
      end
  end.

Definition run (evs : list Event) (w : World) : World :=
  fold_left (fun w ev => step ev w) evs w.

(** Whether the modal is on screen. *)
Definition shown (w : World) : bool :=
  match rendered w with
  | Some p => isOpen p
  | None => false
  end.

(** Whether some render so far had [isOpen]. *)
Definition ever_open (evs : list Event) : bool :=
  existsb (fun ev => match ev with Render p => isOpen p | _ => false end) evs.

(** What React holds for the instance agrees with its last render. *)
Definition coherent (w : World) : Prop :=
  esc_cleanup w =
    match rendered w with
    | Some p => if isOpen p && closeOnEsc_of p then Some (onClose p) else None
    | None => None
    end /\
  listeners w = match esc_cleanup w with Some id => [id] | None => [] end /\
  overflow_cleanup w = shown w.

End Modal.

(** * Properties of useQuery *)

Section UseQueryFacts.
Import UseQuery.
Context {T : Type}.
Implicit Types (h : Hook T) (q : QueryResult T) (a : Activation T).
Implicit Types (l : list (Activation T)) (tr : list (Event T)).

Lemma resume_fulfilled q (v : T) :
  loadData_resume (Fulfilled v) q =
    ({| loading := false; data := Some v; errors := [] |}, Normal tt).
Proof. reflexivity. Qed.

Lemma resume_rejected q e :
  loadData_resume (Rejected e) q =
    if is_AbortError e
    then ({| loading := false; data := data q; errors := errors q |}, Return)
    else ({| loading := false; data := None; errors := [errorMessage e] |},
          Normal tt).
Proof.
  unfold loadData_resume, try_catch_finally, on_error; simpl.
  destruct (is_AbortError e); reflexivity.
Qed.

Lemma start_throwing q e :
  loadData_start (ThrowsSync e) q =
    if is_AbortError e
    then ({| loading := false; data := data q; errors := errors q |}, Return)
    else ({| loading := false; data := None; errors := [errorMessage e] |},
          Normal tt).
Proof.
  unfold loadData_start, loadData, try_catch_finally, on_error; simpl.
  destruct (is_AbortError e); reflexivity.
Qed.

(** Splitting [loadData] at its [await] loses nothing. *)
Lemma loadData_split (settle : bool -> Settlement T) b q :
  loadData (Async settle) b q =
    loadData_resume (settle b) (fst (loadData_start (Async settle) q)).
Proof.
  unfold loadData, loadData_resume, try_catch_finally, on_error; simpl.
  destruct (settle b) as [v|e]; simpl; [reflexivity|].
  destruct (is_AbortError e); reflexivity.
Qed.

Lemma abort_error_is_AbortError message :
  is_AbortError (ErrorObj "AbortError" message) = true.
Proof. reflexivity. Qed.

(** Only an [Error] named ['AbortError'] passes the test of the [catch]
    block. *)
Lemma is_AbortError_spec e :
  is_AbortError e = true <-> exists message, e = ErrorObj "AbortError" message.
Proof.
  split.
  - destruct e as [name message|v]; simpl; [|discriminate].
    intros Hn. apply String.eqb_eq in Hn. subst. eauto.
  - intros [message ->]. reflexivity.
Qed.

Lemma other_error_is_not_AbortError e :
  (forall message, e <> ErrorObj "AbortError" message) ->
  is_AbortError e = false.
Proof.
  intros Hne. destruct (is_AbortError e) eqn:He; [|reflexivity].
  apply is_AbortError_spec in He as [message ->]. destruct (Hne message eq_refl).
Qed.

Lemma cleanup_length l : length (cleanup l) = length l.
Proof. apply length_alter. Qed.

Lemma cleanup_lookup l i :
  cleanup l !! i =
    if decide (i = length l - 1) then abort <$> l !! i else l !! i.
Proof.
  unfold cleanup. destruct (decide (i = length l - 1)) as [->|Hne].
  - apply list_lookup_alter_eq.
  - apply list_lookup_alter_ne. congruence.
Qed.

Lemma run_cons ev tr h : run (ev :: tr) h = run tr (step ev h).
Proof. reflexivity. Qed.

(** A stopped run stays stopped. *)
Lemma stopped_step ev h i settle :
  stopped i settle h -> stopped i settle (step ev h).
Proof.
  intros (a & Hl & Ha & Hi).
  assert (Hc : exists a', cleanup (effects h) !! i = Some a' /\
                          aborted a' = true /\ inflight a' = inflight a).
  { rewrite cleanup_lookup, Hl. case_decide; simpl; eauto. }
  destruct ev as [f| |j]; simpl.
  - destruct Hc as (a' & Hl' & Ha' & Hi').
    exists a'. split; [|rewrite Hi'; auto].
    apply lookup_app_l_Some, Hl'.
  - destruct Hc as (a' & Hl' & Ha' & Hi').
    exists a'. rewrite Hi'. auto.
  - destruct (effects h !! j) as [b|] eqn:Hj; [|exists a; auto].
    destruct (inflight b) as [s|] eqn:Hb; [|exists a; auto].
    simpl. destruct (decide (j = i)) as [->|Hne].
    + rewrite Hl in Hj. injection Hj as <-.
      eexists. split; [apply list_lookup_insert_eq; eapply lookup_lt_Some, Hl|].
      simpl. auto.
    + exists a. simpl. rewrite list_lookup_insert_ne by exact Hne. auto.
Qed.

Lemma stopped_run tr h i settle :
  stopped i settle h -> stopped i settle (run tr h).
Proof.
  revert h. induction tr as [|ev tr IH]; intros h Hs; [exact Hs|].
  rewrite run_cons. apply IH, stopped_step, Hs.
Qed.

(** After an abort, a promise that honours the signal changes neither
    [data] nor [errors] when it settles. *)
Lemma aborted_honouring_settle h i a settle :
  effects h !! i = Some a -> aborted a = true ->
  (inflight a = None \/ (inflight a = Some settle /\ honours settle)) ->
  data (slots (step (Settle i) h)) = data (slots h) /\
  errors (slots (step (Settle i) h)) = errors (slots h).
Proof.
  intros Hl Ha Hi. simpl. rewrite Hl.
  destruct Hi as [Hi|[Hi (m & Hm)]]; rewrite Hi; [auto|].
  simpl. rewrite Ha, Hm, resume_rejected, abort_error_is_AbortError. auto.
Qed.

(** Both the cleanup alone and a re-run of the effect stop the latest run. *)
Lemma stop_stops_latest h a settle :
  effects h !! (length (effects h) - 1) = Some a ->
  inflight a = Some settle ->
  stopped (length (effects h) - 1) settle (step Stop h) /\
  forall f, stopped (length (effects h) - 1) settle (step (Start f) h).
Proof.
  intros Hl Hi.
  assert (Hc : cleanup (effects h) !! (length (effects h) - 1) = Some (abort a)).
  { rewrite cleanup_lookup, Hl. case_decide; [reflexivity|congruence]. }
  split; [|intros f]; exists (abort a); simpl; rewrite Hi.
  - auto.
  - split; [apply lookup_app_l_Some, Hc|auto].
Qed.

Lemma superseded_aborted_init : superseded_aborted (@init T).
Proof. intros i a Hl. discriminate Hl. Qed.

Lemma superseded_aborted_step ev h :
  honouring ev -> superseded_aborted h -> superseded_aborted (step ev h).
Proof.
  intros Hev Hinv.
  assert (Hc : forall i a, cleanup (effects h) !! i = Some a ->
            (S i < S (length (effects h)) -> aborted a = true) /\
            (forall settle, inflight a = Some settle -> honours settle)).
  { intros i a. rewrite cleanup_lookup.
    case_decide as Hi.
    - destruct (effects h !! i) as [b|] eqn:Hb; [|discriminate].
      simpl. intros [= <-]. split; [reflexivity|].
      apply (Hinv i b Hb).
    - intros Hb. pose proof (lookup_lt_Some _ _ _ Hb) as Hlt.
      destruct (Hinv i a Hb) as [H1 H2].
      split; [intros _; apply H1; lia|exact H2]. }
  destruct ev as [f| |j]; simpl; intros i a Hl; simpl in *.
  - rewrite length_app, cleanup_length. simpl.
    apply lookup_app_Some in Hl as [Hl|[Hge Hl]].
    + destruct (Hc i a Hl) as [H1 H2]. split; [intros _; apply H1|exact H2].
      apply lookup_lt_Some in Hl. rewrite cleanup_length in Hl. lia.
    + rewrite cleanup_length in *.
      destruct (i - length (effects h)) as [|n] eqn:Hn; [|discriminate Hl].
      injection Hl as <-. simpl. split; [lia|].
      destruct f as [e|s]; [discriminate|]. intros settle [= <-]. exact Hev.
  - rewrite cleanup_length. destruct (Hc i a Hl) as [H1 H2].
    split; [intros Hlt; apply H1; lia|exact H2].
  - destruct (effects h !! j) as [b|] eqn:Hj; [|exact (Hinv i a Hl)].
    destruct (inflight b) as [s|] eqn:Hb; [|exact (Hinv i a Hl)].
    simpl in *. rewrite length_insert.
    destruct (decide (j = i)) as [->|Hne].
    + rewrite list_lookup_insert_eq in Hl by (eapply lookup_lt_Some, Hj).
      injection Hl as <-. simpl. split; [|discriminate].
      apply (Hinv i b Hj).
    + rewrite list_lookup_insert_ne in Hl by exact Hne. exact (Hinv i a Hl).
Qed.

Lemma superseded_aborted_run tr h :
  Forall honouring tr -> superseded_aborted h -> superseded_aborted (run tr h).
Proof.
  revert h. induction tr as [|ev tr IH]; intros h Htr Hinv; [exact Hinv|].
  inversion Htr; subst. rewrite run_cons.
  apply IH; [assumption|]. apply superseded_aborted_step; assumption.
Qed.

Lemma settle_length h i :
  length (effects (step (Settle i) h)) = length (effects h).
Proof.
  simpl. destruct (effects h !! i) as [a|]; [|reflexivity].
  destruct (inflight a); [apply length_insert|reflexivity].
Qed.

(** Under the invariant, the settlement of a run that is not the latest
    leaves [data] and [errors] alone. *)
Lemma stale_settle_keeps h i :
  superseded_aborted h -> S i < length (effects h) ->
  data (slots (step (Settle i) h)) = data (slots h) /\
  errors (slots (step (Settle i) h)) = errors (slots h).
Proof.
  intros Hinv Hlt.
  destruct (lookup_lt_is_Some_2 (effects h) i) as [a Hl]; [lia|].
  destruct (Hinv i a Hl) as [Ha Hh].
  destruct (inflight a) as [s|] eqn:Hi.
  - apply (aborted_honouring_settle _ _ a s Hl (Ha Hlt)). auto.
  - apply (aborted_honouring_settle _ _ a (fun _ => Rejected (NonError JNull))
             Hl (Ha Hlt)). auto.
Qed.

Lemma stale_settles_keep js h :
  superseded_aborted h ->
  Forall (fun j => S j < length (effects h)) js ->
  data (slots (run (map Settle js) h)) = data (slots h) /\
  errors (slots (run (map Settle js) h)) = errors (slots h).
Proof.
  revert h. induction js as [|j js IH]; intros h Hinv Hjs; [split; reflexivity|].
  inversion Hjs as [|? ? Hj Hrest]; subst.
  change (run (map Settle (j :: js)) h)
    with (run (map Settle js) (step (Settle j) h)).
  destruct (stale_settle_keeps h j Hinv Hj) as [Hd He].
  destruct (IH (step (Settle j) h)) as [Hd' He'].
  - apply superseded_aborted_step; [exact I|exact Hinv].
  - rewrite settle_length. exact Hrest.
  - split; congruence.
Qed.

Lemma consistent_step ev h :
  consistent (slots h) -> consistent (slots (step ev h)).
Proof.
  intros Hc. destruct ev as [[e|s]| |j]; cbn [step slots].
  - rewrite start_throwing. destruct (is_AbortError e); simpl.
    + exact Hc.
    + right. eauto.
  - exact Hc.
  - exact Hc.
  - destruct (effects h !! j) as [b|]; [|exact Hc].
    destruct (inflight b) as [s|]; [|exact Hc].
    cbn [slots]. destruct (s (aborted b)) as [v|e].
    + left. reflexivity.
    + rewrite resume_rejected. destruct (is_AbortError e); simpl.
      * exact Hc.
      * right. eauto.
Qed.

Lemma consistent_run tr h :
  consistent (slots h) -> consistent (slots (run tr h)).
Proof.
  revert h. induction tr as [|ev tr IH]; intros h Hc; [exact Hc|].
  rewrite run_cons. apply IH, consistent_step, Hc.
Qed.

End UseQueryFacts.

Section UseQueryClaims.
Import UseQuery.
Context {T : Type}.
Implicit Types (h : Hook T) (q : QueryResult T) (a : Activation T).
Implicit Types (tr : list (Event T)).

(** C1 (amended). When the cleanup has run on an effect run whose fetcher
    honours the abort signal (its promise rejects with an [AbortError] once
    the signal is aborted), then, whatever happens in between, the
    settlement of that run changes neither [data] nor [errors]. *)
Theorem stopped_fetch_keeps_data_and_errors h i settle tr :
  stopped i settle h ->
  honours settle ->
  data (slots (step (Settle i) (run tr h))) = data (slots (run tr h)) /\
  errors (slots (step (Settle i) (run tr h))) = errors (slots (run tr h)).
Proof.
  intros Hs Hh.
  destruct (stopped_run tr h i settle Hs) as (a & Hl & Ha & Hi).
  apply (aborted_honouring_settle _ _ a settle Hl Ha).
  destruct Hi as [Hi|Hi]; auto.
Qed.

(** C2 (amended). In every sequence of effect runs, cleanups and
    settlements in which each fetcher honours the abort signal, the
    settlements of runs that are not the most recently started one change
    neither [data] nor [errors], however many of them there are and in
    whatever order the promises settle. *)
Theorem superseded_fetch_never_sets_data_or_errors tr js :
  Forall honouring tr ->
  Forall (fun j => S j < length (effects (run tr init))) js ->
  data (slots (run (map Settle js) (run tr init))) = data (slots (run tr init)) /\
  errors (slots (run (map Settle js) (run tr init))) = errors (slots (run tr init)).
Proof.
  intros Htr Hjs. apply stale_settles_keep; [|exact Hjs].
  apply superseded_aborted_run; [exact Htr|apply superseded_aborted_init].
Qed.

(** C4 (amended). At every observable point [data] and [errors] are not
    both present: [errors] is empty, or [data] is null and [errors] holds
    one message.  After the first effect run and before any settlement,
    [loading] is true, [data] is null and [errors] is empty.  A re-run of
    the effect sets [loading] to true and keeps [data] and [errors] as the
    last settlement left them. *)
Theorem data_and_errors_never_both_present :
  (forall tr, consistent (slots (run tr init))) /\
  (forall settle : bool -> Settlement T,
      slots (step (Start (Async settle)) init) =
        {| loading := true; data := None; errors := [] |}) /\
  (forall h (settle : bool -> Settlement T),
      slots (step (Start (Async settle)) h) =
        {| loading := true; data := data (slots h);
           errors := errors (slots h) |}).
Proof.
  split; [|split].
  - intros tr. apply consistent_run. left. reflexivity.
  - reflexivity.
  - reflexivity.
Qed.

(** C5. When the promise of a run that has not been cancelled is fulfilled
    with [v], the hook goes to [loading = false], [data = v] (the very
    value), [errors = []]; the run is settled from then on, so that it
    cannot produce a second terminal state. *)
Theorem fulfilled_value_is_stored h i settle v :
  effects h !! i = Some {| aborted := false; inflight := Some settle |} ->
  settle false = Fulfilled v ->
  slots (step (Settle i) h) =
    {| loading := false; data := Some v; errors := [] |} /\
  effects (step (Settle i) h) !! i =
    Some {| aborted := false; inflight := None |} /\
  step (Settle i) (step (Settle i) h) = step (Settle i) h.
Proof.
  intros Hl Hv.
  assert (Hi : effects (step (Settle i) h) !! i =
               Some {| aborted := false; inflight := None |}).
  { simpl. rewrite Hl. simpl.
    apply list_lookup_insert_eq. eapply lookup_lt_Some, Hl. }
  split; [|split].
  - simpl. rewrite Hl. simpl. rewrite Hv. reflexivity.
  - exact Hi.
  - generalize dependent (step (Settle i) h). intros h' Hi.
    simpl. rewrite Hi. reflexivity.
Qed.

(** C6. When the promise of a run that has not been cancelled is rejected
    with anything but an [Error] named ['AbortError'] (an [Error] of any
    other name, or a thrown value that is no [Error] at all), the hook
    goes to [loading = false], [data = null] and [errors] the one-element
    list holding the message of the [Error], or ['An unknown error
    occurred'] for any other thrown value; the run is settled from then
    on. *)
Theorem rejection_becomes_single_error h i settle e :
  effects h !! i = Some {| aborted := false; inflight := Some settle |} ->
  settle false = Rejected e ->
  (forall message, e <> ErrorObj "AbortError" message) ->
  slots (step (Settle i) h) =
    {| loading := false; data := None;
       errors := [match e with
                  | ErrorObj _ message => message
                  | NonError _ => "An unknown error occurred"
                  end] |} /\
  effects (step (Settle i) h) !! i =
    Some {| aborted := false; inflight := None |} /\
  step (Settle i) (step (Settle i) h) = step (Settle i) h.
Proof.
  intros Hl He Hother.
  pose proof (other_error_is_not_AbortError e Hother) as Hab.
  assert (Hi : effects (step (Settle i) h) !! i =
               Some {| aborted := false; inflight := None |}).
  { simpl. rewrite Hl. simpl.
    apply list_lookup_insert_eq. eapply lookup_lt_Some, Hl. }
  split; [|split].
  - simpl. rewrite Hl. simpl. rewrite He, resume_rejected, Hab. reflexivity.
  - exact Hi.
  - generalize dependent (step (Settle i) h). intros h' Hi.
    simpl. rewrite Hi. reflexivity.
Qed.

(** C7. Whatever the fetcher does (throw on the call, reject with an
    [Error] or with any other value, fulfil), [loadData] completes without
    a throw, before and after its [await]: its promise is never rejected
    and nothing reaches the caller of the hook.  Every thrown value other
    than an [Error] named ['AbortError'], thrown by the call itself or
    carried by the rejection, ends up as result state: [loading = false],
    [data = null] and [errors] the one message (that of the [Error], or
    ['An unknown error occurred']).  An [AbortError], the cancellation
    signal, is swallowed: [data] and [errors] stay as they were. *)
Theorem no_exception_leaves_loadData q :
  (forall f : Fetcher T, escapes (snd (loadData_start f q)) = None) /\
  (forall p : Settlement T, escapes (snd (loadData_resume p q)) = None) /\
  (forall e,
      (forall message, e <> ErrorObj "AbortError" message) ->
      let failed :=
        {| loading := false; data := None;
           errors := [match e with
                      | ErrorObj _ message => message
                      | NonError _ => "An unknown error occurred"
                      end] |} in
      fst (loadData_start (ThrowsSync e) q) = failed /\
      fst (loadData_resume (Rejected e) q) = failed) /\
  (forall message,
      let cancelled := @ErrorObj "AbortError" message in
      data (fst (loadData_resume (Rejected cancelled) q)) = data q /\
      errors (fst (loadData_resume (Rejected cancelled) q)) = errors q /\
      data (fst (loadData_start (ThrowsSync cancelled) q)) = data q /\
      errors (fst (loadData_start (ThrowsSync cancelled) q)) = errors q).
Proof.
  split; [|split; [|split]].
  - intros [e|s]; [|reflexivity].
    rewrite start_throwing. destruct (is_AbortError e); reflexivity.
  - intros [v|e]; [reflexivity|].
    rewrite resume_rejected. destruct (is_AbortError e); reflexivity.
  - intros e Hother failed.
    rewrite start_throwing, resume_rejected.
    rewrite (other_error_is_not_AbortError e Hother). split; reflexivity.
  - intros message cancelled. repeat split.
Qed.

End UseQueryClaims.

Section UseQueryExamples.
Import UseQuery.

Import Samples.

Lemma stopped_fetch_keeps_data_and_errors_witness :
  let h := run [Start (Async (polite 7)); Stop] init in
  let tr := [Start (Async (deaf 9)); Settle 1] in
  stopped 0 (polite 7) h /\ honours (polite 7) /\
  data (slots (step (Settle 0) (run tr h))) = data (slots (run tr h)) /\
  errors (slots (step (Settle 0) (run tr h))) = errors (slots (run tr h)).
Proof.
  intros h tr.
  assert (Hs : stopped 0 (polite 7) h).
  { eexists. split; [reflexivity|]. split; [reflexivity|]. right. reflexivity. }
  assert (Hh : honours (polite 7)).
  { eexists. reflexivity. }
  split; [exact Hs|]. split; [exact Hh|].
  exact (stopped_fetch_keeps_data_and_errors h 0 (polite 7) tr Hs Hh).
Defined.

(** C1 as stated fails: the effect runs with a fetcher that ignores the
    signal, the cleanup runs (here followed by a re-run of the effect, the
    component staying mounted), and the first promise is fulfilled
    afterwards: [loadData] writes all three cells. *)
Lemma ignored_signal_mutates_after_stop :
  let h := run [Start (Async (deaf 7)); Stop; Start (Async (deaf 9))] init in
  stopped 0 (deaf 7) h /\
  slots h = {| loading := true; data := None; errors := [] |} /\
  slots (step (Settle 0) h) =
    {| loading := false; data := Some 7; errors := [] |} /\
  slots (step (Settle 0) h) <> slots h.
Proof.
  intros h. split; [|split; [|split]].
  - eexists. split; [reflexivity|]. split; [reflexivity|]. right. reflexivity.
  - reflexivity.
  - reflexivity.
  - discriminate.
Qed.

Lemma superseded_fetch_never_sets_data_or_errors_witness :
  let tr := [Start (Async (polite 1)); Start (Async (polite 2));
             Start (Async (polite 3)); Settle 2] in
  Forall honouring tr /\
  Forall (fun j => S j < length (effects (run tr init))) [1; 0] /\
  data (slots (run [Settle 1; Settle 0] (run tr init))) = Some 3 /\
  errors (slots (run [Settle 1; Settle 0] (run tr init))) = [].
Proof.
  intros tr.
  assert (Htr : Forall honouring tr).
  { repeat constructor; eexists; reflexivity. }
  assert (Hjs : Forall (fun j => S j < length (effects (run tr init))) [1; 0]).
  { repeat constructor. }
  split; [exact Htr|]. split; [exact Hjs|].
  exact (superseded_fetch_never_sets_data_or_errors tr [1; 0] Htr Hjs).
Defined.

(** C2 as stated fails: the effect runs twice, neither fetcher looks at
    its signal, the second promise is fulfilled first and the first one
    last: the hook ends with the value of the superseded run. *)
Lemma superseded_fetch_overwrites_latest :
  let started := [Start (Async (deaf 1)); Start (Async (deaf 2))] in
  slots (run (started ++ [Settle 1]) init) =
    {| loading := false; data := Some 2; errors := [] |} /\
  slots (run (started ++ [Settle 1; Settle 0]) init) =
    {| loading := false; data := Some 1; errors := [] |}.
Proof. split; reflexivity. Qed.

(** C3 (defect of the code). Under React 18 Strict Mode the effect runs,
    is cleaned up and runs again; the first fetcher honours the abort by
    rejecting with an [AbortError].  The [catch] block returns early, but
    the [finally] block still runs [setLoading(false)]: [loading] goes from
    true to false while the second run is still waiting for its promise. *)
Theorem abort_rejection_clears_loading :
  let h := run [Start (Async (polite 7)); Stop; Start (Async (polite 9))] init in
  slots h = {| loading := true; data := None; errors := [] |} /\
  effects h !! 0 = Some {| aborted := true; inflight := Some (polite 7) |} /\
  effects h !! 1 = Some {| aborted := false; inflight := Some (polite 9) |} /\
  polite 7 true = Rejected (ErrorObj "AbortError" "The operation was aborted.") /\
  slots (step (Settle 0) h) =
    {| loading := false; data := None; errors := [] |}.
Proof. repeat split. Qed.

(** C4 as stated fails: after a completed fetch the effect runs again;
    [loading] is true while [data] still holds the previous value, and
    likewise [errors] after a failed fetch. *)
Lemma loading_keeps_previous_result :
  slots (run [Start (Async (deaf 7)); Settle 0; Start (Async (deaf 9))] init) =
    {| loading := true; data := Some 7; errors := [] |} /\
  slots (run [Start (Async (fun _ => Rejected (ErrorObj "Error" "HTTP Error: 500 ")));
              Settle 0; Start (Async (deaf 9))] init) =
    {| loading := true; data := None; errors := ["HTTP Error: 500 "] |}.
Proof. split; reflexivity. Qed.

Lemma fulfilled_value_is_stored_witness :
  let h := run [Start (Async (polite 7))] init in
  slots (step (Settle 0) h) =
    {| loading := false; data := Some 7; errors := [] |} /\
  effects (step (Settle 0) h) !! 0 =
    Some {| aborted := false; inflight := None |} /\
  step (Settle 0) (step (Settle 0) h) = step (Settle 0) h.
Proof.
  intros h.
  exact (fulfilled_value_is_stored h 0 (polite 7) 7 eq_refl eq_refl).
Defined.

Lemma rejection_becomes_single_error_witness :
  let failing := fun _ : bool =>
    @Rejected nat (ErrorObj "TypeError" "Failed to fetch") in
  let odd := fun _ : bool => @Rejected nat (NonError (JStr "timeout")) in
  let h := run [Start (Async failing)] init in
  let h' := run [Start (Async odd)] init in
  (slots (step (Settle 0) h) =
     {| loading := false; data := None; errors := ["Failed to fetch"] |} /\
   effects (step (Settle 0) h) !! 0 =
     Some {| aborted := false; inflight := None |} /\
   step (Settle 0) (step (Settle 0) h) = step (Settle 0) h) /\
  (slots (step (Settle 0) h') =
     {| loading := false; data := None;
        errors := ["An unknown error occurred"] |} /\
   effects (step (Settle 0) h') !! 0 =
     Some {| aborted := false; inflight := None |} /\
   step (Settle 0) (step (Settle 0) h') = step (Settle 0) h').
Proof.
  intros failing odd h h'. split.
  - apply (rejection_becomes_single_error h 0 failing
             (ErrorObj "TypeError" "Failed to fetch") eq_refl eq_refl).
    intros message. discriminate.
  - apply (rejection_becomes_single_error h' 0 odd
             (NonError (JStr "timeout")) eq_refl eq_refl).
    intros message. discriminate.
Defined.

Lemma no_exception_leaves_loadData_witness :
  let q := {| loading := true; data := Some 7; errors := [] |} in
  (fst (loadData_start (ThrowsSync (NonError (JNum 42))) q) =
     {| loading := false; data := None;
        errors := ["An unknown error occurred"] |} /\
   fst (loadData_resume (Rejected (NonError (JNum 42))) q) =
     {| loading := false; data := None;
        errors := ["An unknown error occurred"] |}) /\
  (fst (loadData_start (ThrowsSync (ErrorObj "TypeError" "fetcher is not a function")) q) =
     {| loading := false; data := None;
        errors := ["fetcher is not a function"] |} /\
   fst (loadData_resume (Rejected (ErrorObj "TypeError" "fetcher is not a function")) q) =
     {| loading := false; data := None;
        errors := ["fetcher is not a function"] |}).
Proof.
  intros q.
  destruct (no_exception_leaves_loadData q) as (_ & _ & Hconv & _).
  split.
  - apply (Hconv (NonError (JNum 42))). intros message. discriminate.
  - apply (Hconv (ErrorObj "TypeError" "fetcher is not a function")).
    intros message. discriminate.
Defined.

End UseQueryExamples.

(** * Properties of useLoadData *)

Section UseLoadDataFacts.
Import UseLoadData.
Context {T : Type}.
Implicit Types (h : Hook T) (q : LoadState T) (a : Activation T).
Implicit Types (l : list (Activation T)) (tr : list (Event T)).

(** With [isMounted] false every setter of the continuation is skipped. *)
Lemma resume_unmounted (p : Settlement T) q :
  fst (load_resume p false q) = q.
Proof. destruct p; reflexivity. Qed.

Lemma cleanup_keeps_unmounted l i a :
  l !! i = Some a -> isMounted a = false ->
  exists a', cleanup l !! i = Some a' /\ isMounted a' = false.
Proof.
  intros Hl Ha. unfold cleanup.
  destruct (decide (length l - 1 = i)) as [<-|Hne].
  - rewrite list_lookup_alter_eq, Hl. simpl. eauto.
  - rewrite list_lookup_alter_ne by exact Hne. eauto.
Qed.

Lemma torn_down_step ev h i : torn_down i h -> torn_down i (step ev h).
Proof.
  intros (a & Hl & Ha).
  destruct (cleanup_keeps_unmounted _ _ _ Hl Ha) as (a' & Hl' & Ha').
  destruct ev as [f| |j]; unfold torn_down; simpl.
  - exists a'. split; [apply lookup_app_l_Some, Hl'|exact Ha'].
  - exists a'. auto.
  - destruct (effects h !! j) as [b|] eqn:Hj; [|exists a; auto].
    destruct (inflight b) as [p|] eqn:Hb; [|exists a; auto].
    simpl. destruct (decide (j = i)) as [->|Hne].
    + rewrite Hl in Hj. injection Hj as <-.
      eexists. split; [apply list_lookup_insert_eq; eapply lookup_lt_Some, Hl|].
      exact Ha.
    + exists a. rewrite list_lookup_insert_ne by exact Hne. auto.
Qed.

Lemma torn_down_run tr h i : torn_down i h -> torn_down i (run tr h).
Proof.
  revert h. induction tr as [|ev tr IH]; intros h Hs; [exact Hs|].
  change (run (ev :: tr) h) with (run tr (step ev h)).
  apply IH, torn_down_step, Hs.
Qed.

(** The cleanup, on its own or before a re-run of the effect, tears the
    current run down. *)
Lemma cleanup_tears_down_current h a :
  effects h !! (length (effects h) - 1) = Some a ->
  torn_down (length (effects h) - 1) (step Stop h) /\
  forall f, torn_down (length (effects h) - 1) (step (Start f) h).
Proof.
  intros Hl.
  assert (Hc : cleanup (effects h) !! (length (effects h) - 1) = Some (unmount a)).
  { unfold cleanup. rewrite list_lookup_alter_eq, Hl. reflexivity. }
  split; [|intros f]; exists (unmount a); simpl.
  - auto.
  - split; [apply lookup_app_l_Some, Hc|reflexivity].
Qed.

(** C9. Once the cleanup of an effect run has set its [isMounted] to
    false, the settlement of that run's promise, fulfilled or rejected,
    now or after any further events, leaves [data], [loading] and [error]
    as they are. *)
Theorem torn_down_load_never_mutates h i tr :
  torn_down i h ->
  slots (step (Settle i) (run tr h)) = slots (run tr h).
Proof.
  intros Hs. destruct (torn_down_run tr h i Hs) as (a & Hl & Ha).
  simpl. rewrite Hl. destruct (inflight a) as [p|]; [|reflexivity].
  simpl. rewrite Ha. apply resume_unmounted.
Qed.

End UseLoadDataFacts.

Section UseLoadDataExamples.
Import UseLoadData.

Lemma torn_down_load_never_mutates_witness :
  let h := run [Start (Async (Fulfilled 7)); Stop] init in
  let tr := [Start (Async (Rejected (ErrorObj "Error" "Network response was not ok")))] in
  torn_down 0 h /\
  slots (step (Settle 0) (run tr h)) =
    {| data := None; loading := true; error := None |}.
Proof.
  intros h tr.
  assert (Hs : torn_down 0 h).
  { eexists. split; reflexivity. }
  split; [exact Hs|].
  exact (torn_down_load_never_mutates h 0 tr Hs).
Defined.

(** While still mounted, the same settlement does write the cells. *)
Lemma mounted_load_stores_value :
  slots (run [Start (Async (Fulfilled 7)); Settle 0] init) =
    {| data := Some 7; loading := false; error := None |}.
Proof. reflexivity. Qed.

End UseLoadDataExamples.

(** * Properties of the example fetchers *)

Section FetcherFacts.
Import Fetchers.

Lemma fetchUsers_not_ok r :
  ok r = false ->
  fetchUsers (Fulfilled r) =
    Rejected (ErrorObj "Error"
                ("HTTP Error: " +:+ number_to_string (status r)
                   +:+ " " +:+ statusText r)).
Proof. intros Hok. unfold fetchUsers, bind; simpl. rewrite Hok. reflexivity. Qed.

Lemma getUsers_not_ok r :
  ok r = false ->
  getUsers (Fulfilled r) = Rejected (ErrorObj "Error" "Network response was not ok").
Proof. intros Hok. unfold getUsers, bind; simpl. rewrite Hok. reflexivity. Qed.

Lemma getUsers_ok r :
  ok r = true -> getUsers (Fulfilled r) = json r.
Proof.
  intros Hok. unfold getUsers, bind; simpl. rewrite Hok; simpl.
  destruct (json r); reflexivity.
Qed.

(** What [fetchUsers] makes of a parsed body. *)
Lemma fetchUsers_ok r payload :
  ok r = true -> json r = Fulfilled payload ->
  fetchUsers (Fulfilled r) =
    if isArray payload then Fulfilled payload
    else match get_property payload "data" tt with
         | (_, Normal d) => Fulfilled (or_else d (JArr []))
         | (_, Throw e) => Rejected e
         | (_, Return) => Fulfilled JUndefined
         end.
Proof.
  intros Hok Hjs. unfold fetchUsers, bind; simpl. rewrite Hok, Hjs; simpl.
  destruct (isArray payload); [reflexivity|].
  destruct (get_property payload "data" tt) as [[] [d|e|]]; reflexivity.
Qed.

(** A body that does not parse, or a [fetch] that fails, rejects both. *)
Lemma fetchers_pass_failures_on e :
  fetchUsers (Rejected e) = Rejected e /\ getUsers (Rejected e) = Rejected e /\
  forall r, ok r = true -> json r = Rejected e ->
            fetchUsers (Fulfilled r) = Rejected e /\
            getUsers (Fulfilled r) = Rejected e.
Proof.
  split; [reflexivity|]. split; [reflexivity|].
  intros r Hok Hjs. split.
  - unfold fetchUsers, bind; simpl. rewrite Hok, Hjs. reflexivity.
  - rewrite getUsers_ok by exact Hok. exact Hjs.
Qed.

(** C8 (amended). A response with [ok] false makes both fetchers reject
    with an [Error]: ['HTTP Error: <status> <statusText>'] for
    [fetchUsers], ['Network response was not ok'] for [getUsers].  For a
    response with [ok] true whose body parses to a payload, [getUsers]
    resolves to the payload.  [fetchUsers] resolves to the payload when it
    is an array; when it is an object, to its [data] property when that is
    an array, and to the empty array when that property is missing or
    falsy; when it is a boolean, a number or a string, to the empty
    array. *)
Theorem fetchers_on_http_response (r : Response) :
  (ok r = false ->
     fetchUsers (Fulfilled r) =
       Rejected (ErrorObj "Error"
                   ("HTTP Error: " +:+ number_to_string (status r)
                      +:+ " " +:+ statusText r)) /\
     getUsers (Fulfilled r) =
       Rejected (ErrorObj "Error" "Network response was not ok")) /\
  (forall payload,
     ok r = true -> json r = Fulfilled payload ->
     getUsers (Fulfilled r) = Fulfilled payload /\
     (isArray payload = true -> fetchUsers (Fulfilled r) = Fulfilled payload) /\
     (forall props,
        payload = JObj props ->
        (isArray (lookup_prop "data" props) = true ->
         fetchUsers (Fulfilled r) = Fulfilled (lookup_prop "data" props)) /\
        (truthy (lookup_prop "data" props) = false ->
         fetchUsers (Fulfilled r) = Fulfilled (JArr []))) /\
     ((exists b, payload = JBool b) \/ (exists n, payload = JNum n) \/
      (exists s, payload = JStr s) ->
      fetchUsers (Fulfilled r) = Fulfilled (JArr []))).
Proof.
  split.
  - intros Hok. split; [apply fetchUsers_not_ok|apply getUsers_not_ok]; exact Hok.
  - intros payload Hok Hjs. split; [|split; [|split]].
    + rewrite getUsers_ok by exact Hok. exact Hjs.
    + intros Harr. rewrite (fetchUsers_ok r payload Hok Hjs), Harr. reflexivity.
    + intros props ->. rewrite (fetchUsers_ok r _ Hok Hjs). simpl.
      unfold or_else. split; intros H.
      * destruct (lookup_prop "data" props); try discriminate H. reflexivity.
      * rewrite H. reflexivity.
    + intros [[b ->]|[[n ->]|[s' ->]]];
        rewrite (fetchUsers_ok r _ Hok Hjs); reflexivity.
Qed.

End FetcherFacts.

Section FetcherExamples.
Import Fetchers Samples.

Lemma fetchers_on_http_response_witness :
  (fetchUsers (Fulfilled not_found) =
     Rejected (ErrorObj "Error" "HTTP Error: 404 Not Found") /\
   getUsers (Fulfilled not_found) =
     Rejected (ErrorObj "Error" "Network response was not ok")) /\
  (getUsers (Fulfilled (ok_response (JArr [alice]))) = Fulfilled (JArr [alice]) /\
   fetchUsers (Fulfilled (ok_response (JArr [alice]))) = Fulfilled (JArr [alice])) /\
  fetchUsers (Fulfilled (ok_response (JObj [("data", JArr [alice])]))) =
    Fulfilled (JArr [alice]) /\
  fetchUsers (Fulfilled (ok_response (JObj [("total", JNum 0)]))) =
    Fulfilled (JArr []) /\
  fetchUsers (Fulfilled (ok_response (JStr "no users"))) = Fulfilled (JArr []).
Proof.
  split; [|split; [|split; [|split]]].
  - exact (proj1 (fetchers_on_http_response not_found) eq_refl).
  - destruct (proj2 (fetchers_on_http_response (ok_response (JArr [alice])))
                (JArr [alice]) eq_refl eq_refl) as (Hg & Hf & _).
    exact (conj Hg (Hf eq_refl)).
  - destruct (proj2 (fetchers_on_http_response
                       (ok_response (JObj [("data", JArr [alice])])))
                _ eq_refl eq_refl) as (_ & _ & Hd & _).
    exact (proj1 (Hd _ eq_refl) eq_refl).
  - destruct (proj2 (fetchers_on_http_response
                       (ok_response (JObj [("total", JNum 0)])))
                _ eq_refl eq_refl) as (_ & _ & Hd & _).
    exact (proj2 (Hd _ eq_refl) eq_refl).
  - destruct (proj2 (fetchers_on_http_response (ok_response (JStr "no users")))
                _ eq_refl eq_refl) as (_ & _ & _ & Hp).
    apply Hp. right. right. eexists. reflexivity.
Defined.

(** C8 as stated fails for [fetchUsers]: a [200 OK] response whose body
    parses to an envelope object does not resolve to that payload but to
    its [data] property, and a body without [data] resolves to the empty
    array. *)
Lemma fetchUsers_unwraps_payload :
  let envelope := JObj [("data", JArr [alice])] in
  let bare := JObj [("total", JNum 0)] in
  fetchUsers (Fulfilled (ok_response envelope)) = Fulfilled (JArr [alice]) /\
  fetchUsers (Fulfilled (ok_response envelope)) <> Fulfilled envelope /\
  fetchUsers (Fulfilled (ok_response bare)) = Fulfilled (JArr []) /\
  fetchUsers (Fulfilled (ok_response bare)) <> Fulfilled bare.
Proof. repeat split; discriminate. Qed.

End FetcherExamples.

(** * Properties of useGetUser *)

Section UseGetUserFacts.
Import Fetchers UseGetUser Samples.

Lemma loadUsers_resume_rejected q e :
  fst (loadUsers_resume (Rejected e) q) =
    if is_AbortError e
    then {| loading := false; data := data q; errors := errors q |}
    else {| loading := false; data := JArr []; errors := [errorMessage e] |}.
Proof.
  unfold loadUsers_resume, try_catch_finally; simpl.
  destruct (is_AbortError e); reflexivity.
Qed.

(** The hook starts with the empty array and resets [data] to it on an
    error. *)
Lemma data_initially_and_on_error_empty :
  data (slots init) = JArr [] /\
  forall q e, is_AbortError e = false ->
              data (fst (loadUsers_resume (Rejected e) q)) = JArr [].
Proof.
  split; [reflexivity|]. intros q e He.
  rewrite loadUsers_resume_rejected, He. reflexivity.
Qed.

(** As long as [fetchUsers] resolves with arrays, [data] stays an array. *)
Lemma data_array_preserved p q :
  isArray (data q) = true ->
  (forall v, p = Fulfilled v -> isArray v = true) ->
  isArray (data (fst (loadUsers_resume p q))) = true.
Proof.
  intros Hq Hp. destruct p as [v|e].
  - simpl. apply Hp. reflexivity.
  - rewrite loadUsers_resume_rejected. destruct (is_AbortError e); [exact Hq|reflexivity].
Qed.

(** By [data] alone, the hook before any settlement, after a failed fetch
    and after a fetch of zero users look the same. *)
Lemma empty_data_is_ambiguous :
  let pending := run [Start (fun _ => Fulfilled (ok_response (JArr [])))] init in
  let failed := run [Start (fun _ => Fulfilled not_found); Settle 0] init in
  let fetched := run [Start (fun _ => Fulfilled (ok_response (JArr []))); Settle 0] init in
  data (slots pending) = JArr [] /\
  data (slots failed) = JArr [] /\
  data (slots fetched) = JArr [] /\
  errors (slots failed) = ["HTTP Error: 404 Not Found"] /\
  errors (slots fetched) = [].
Proof. repeat split. Qed.

(** C10 (defect of the code). [fetchUsers] is meant to ensure that its
    result is an array, but for a body that is not an array it returns
    the [data] property whenever that is truthy, array or not.  A [200 OK]
    response with the body [{"data": {"items": [..], "total": 1}}] puts an
    object into [data]. *)
Theorem non_array_data_reaches_state :
  let page := JObj [("items", JArr [alice]); ("total", JNum 1)] in
  let net := fun _ : bool => Fulfilled (ok_response (JObj [("data", page)])) in
  let h := run [Start net; Settle 0] init in
  fetchUsers (net false) = Fulfilled page /\
  slots h = {| loading := false; data := page; errors := [] |} /\
  isArray (data (slots h)) = false.
Proof. repeat split. Qed.

End UseGetUserFacts.

(** * Further properties of useLoadData *)

Section UseLoadDataTraces.
Import UseLoadData UseLoadDataInvariants.
Context {T : Type}.
Implicit Types (h : Hook T) (q : LoadState T) (a : Activation T).
Implicit Types (l : list (Activation T)) (tr : list (Event T)).

Lemma load_cleanup_length l : length (cleanup l) = length l.
Proof. apply length_alter. Qed.

Lemma load_cleanup_lookup l i :
  cleanup l !! i =
    if decide (i = length l - 1) then unmount <$> l !! i else l !! i.
Proof.
  unfold cleanup. destruct (decide (i = length l - 1)) as [->|Hne].
  - apply list_lookup_alter_eq.
  - apply list_lookup_alter_ne. congruence.
Qed.

Lemma load_run_cons ev tr h : run (ev :: tr) h = run tr (step ev h).
Proof. reflexivity. Qed.

Lemma load_run_snoc tr ev h : run (tr ++ [ev]) h = step ev (run tr h).
Proof. unfold run. rewrite fold_left_app. reflexivity. Qed.

Lemma only_latest_mounted_step ev h :
  only_latest_mounted h -> only_latest_mounted (step ev h).
Proof.
  intros Hinv. destruct ev as [f| |j]; intros i a Hl Hlt; simpl in *.
  - rewrite length_app, load_cleanup_length in Hlt. simpl in Hlt.
    rewrite lookup_app_l in Hl by (rewrite load_cleanup_length; lia).
    rewrite load_cleanup_lookup in Hl. case_decide as Hi.
    + destruct (effects h !! i) as [b|]; [|discriminate].
      simpl in Hl. injection Hl as <-. reflexivity.
    + apply (Hinv i a Hl). lia.
  - rewrite load_cleanup_length in Hlt.
    rewrite load_cleanup_lookup in Hl. case_decide as Hi; [lia|].
    apply (Hinv i a Hl Hlt).
  - destruct (effects h !! j) as [b|] eqn:Hj; [|exact (Hinv i a Hl Hlt)].
    destruct (inflight b) as [p|] eqn:Hb; [|exact (Hinv i a Hl Hlt)].
    simpl in *. rewrite length_insert in Hlt.
    destruct (decide (j = i)) as [->|Hne].
    + rewrite list_lookup_insert_eq in Hl by (eapply lookup_lt_Some, Hj).
      injection Hl as <-. simpl. apply (Hinv i b Hj Hlt).
    + rewrite list_lookup_insert_ne in Hl by exact Hne.
      apply (Hinv i a Hl Hlt).
Qed.

Lemma only_latest_mounted_run tr h :
  only_latest_mounted h -> only_latest_mounted (run tr h).
Proof.
  revert h. induction tr as [|ev tr IH]; intros h Hinv; [exact Hinv|].
  rewrite load_run_cons. apply IH, only_latest_mounted_step, Hinv.
Qed.

Lemma only_latest_mounted_init : only_latest_mounted (@init T).
Proof. intros i a Hl. discriminate Hl. Qed.

(** A run that is not the latest changes nothing when it settles. *)
Lemma stale_load_settle h i :
  only_latest_mounted h -> S i < length (effects h) ->
  step (Settle i) h =
    {| slots := slots h;
       effects := effects (step (Settle i) h) |} /\
  length (effects (step (Settle i) h)) = length (effects h) /\
  effects (step (Settle i) h) !! (length (effects h) - 1) =
    effects h !! (length (effects h) - 1).
Proof.
  intros Hinv Hlt.
  destruct (lookup_lt_is_Some_2 (effects h) i) as [a Hl]; [lia|].
  pose proof (Hinv i a Hl Hlt) as Ha. simpl. rewrite Hl.
  destruct (inflight a) as [p|]; simpl.
  - rewrite Ha, resume_unmounted, length_insert.
    split; [reflexivity|]. split; [reflexivity|].
    apply list_lookup_insert_ne. lia.
  - destruct h; auto.
Qed.

Lemma pending_clean_step ev h :
  only_latest_mounted h -> pending_clean h -> pending_clean (step ev h).
Proof.
  intros Hm Hinv. destruct ev as [f| |j].
  - intros a p. simpl. rewrite length_app, load_cleanup_length. simpl.
    replace (length (effects h) + 1 - 1) with (length (cleanup (effects h)) + 0)
      by (rewrite load_cleanup_length; lia).
    rewrite lookup_app_r by lia.
    replace (length (cleanup (effects h)) + 0 - length (cleanup (effects h)))
      with 0 by lia.
    simpl. intros [= <-] _. simpl.
    destruct f as [e|p']; [discriminate|]. intros _. split; reflexivity.
  - intros a p. simpl. rewrite load_cleanup_length, load_cleanup_lookup.
    case_decide as Hi; [|congruence].
    destruct (effects h !! (length (effects h) - 1)) as [b|]; [|discriminate].
    simpl. intros [= <-]. discriminate.
  - destruct (decide (S j < length (effects h))) as [Hlt|Hge].
    + destruct (stale_load_settle h j Hm Hlt) as (Hs & Hlen & Hlast).
      intros a p. rewrite Hlen, Hlast, Hs. simpl. apply Hinv.
    + intros a p. simpl.
      destruct (effects h !! j) as [b|] eqn:Hj; [|apply Hinv].
      destruct (inflight b) as [p'|] eqn:Hb; [|apply Hinv].
      simpl. rewrite length_insert.
      assert (j = length (effects h) - 1) as ->.
      { apply lookup_lt_Some in Hj. lia. }
      rewrite list_lookup_insert_eq by (eapply lookup_lt_Some, Hj).
      intros [= <-]. discriminate.
Qed.

Lemma pending_clean_init : pending_clean (@init T).
Proof. intros a p Hl. discriminate Hl. Qed.

Lemma load_invariants_run tr h :
  only_latest_mounted h -> pending_clean h ->
  only_latest_mounted (run tr h) /\ pending_clean (run tr h).
Proof.
  revert h. induction tr as [|ev tr IH]; intros h Hm Hp; [auto|].
  rewrite load_run_cons. apply IH.
  - apply only_latest_mounted_step, Hm.
  - apply pending_clean_step; assumption.
Qed.

Lemma loading_without_error_step ev h :
  loading_without_error (slots h) -> loading_without_error (slots (step ev h)).
Proof.
  intros Hinv. destruct ev as [[e|p]| |j]; simpl.
  - discriminate.
  - intros _. reflexivity.
  - exact Hinv.
  - destruct (effects h !! j) as [b|]; [|exact Hinv].
    destruct (inflight b) as [p|]; [|exact Hinv].
    cbn [slots]. destruct (isMounted b).
    + destruct p; discriminate.
    + rewrite resume_unmounted. exact Hinv.
Qed.

(** No run waits for a promise that is fulfilled. *)
Lemma failing_step ev h :
  (forall i a v, effects h !! i = Some a -> inflight a <> Some (Fulfilled v)) ->
  match ev with Start (Async (Fulfilled _)) => False | _ => True end ->
  (forall i a v, effects (step ev h) !! i = Some a ->
                 inflight a <> Some (Fulfilled v)) /\
  data (slots (step ev h)) = data (slots h).
Proof.
  intros Hinv Hev.
  assert (Hc : forall i a v, cleanup (effects h) !! i = Some a ->
                             inflight a <> Some (Fulfilled v)).
  { intros i a v. rewrite load_cleanup_lookup. case_decide.
    - destruct (effects h !! i) as [b|] eqn:Hb; [|discriminate].
      simpl. intros [= <-]. apply (Hinv i b v Hb).
    - apply Hinv. }
  destruct ev as [[e|[v0|e]]| |j]; try contradiction; simpl.
  - split; [|reflexivity]. intros i a v Hl.
    apply lookup_app_Some in Hl as [Hl|[_ Hl]]; [exact (Hc i a v Hl)|].
    destruct (i - length (cleanup (effects h))); [|discriminate].
    injection Hl as <-. discriminate.
  - split; [|reflexivity]. intros i a v Hl.
    apply lookup_app_Some in Hl as [Hl|[_ Hl]]; [exact (Hc i a v Hl)|].
    destruct (i - length (cleanup (effects h))); [|discriminate].
    injection Hl as <-. discriminate.
  - split; [exact Hc|reflexivity].
  - destruct (effects h !! j) as [b|] eqn:Hj; [|auto].
    destruct (inflight b) as [p|] eqn:Hb; [|auto].
    cbn [slots effects]. split.
    + intros i a v Hl. destruct (decide (j = i)) as [->|Hne].
      * rewrite list_lookup_insert_eq in Hl by (eapply lookup_lt_Some, Hj).
        injection Hl as <-. discriminate.
      * rewrite list_lookup_insert_ne in Hl by exact Hne. exact (Hinv i a v Hl).
    + destruct p as [v|e]; [destruct (Hinv j b v Hj Hb)|].
      destruct (isMounted b); reflexivity.
Qed.

(** X1. In [useLoadData], whatever the fetchers do, the settlement of a
    run that is not the most recently started one writes none of the three
    cells: every earlier run has had its [isMounted] set to false. *)
Theorem superseded_load_never_writes tr i :
  S i < length (effects (run tr (@init T))) ->
  slots (step (Settle i) (run tr init)) = slots (run tr init).
Proof.
  intros Hlt.
  pose proof (only_latest_mounted_run tr init only_latest_mounted_init) as Hm.
  destruct (stale_load_settle _ i Hm Hlt) as (Hs & _). rewrite Hs. reflexivity.
Qed.

(** X2. At every observable point of [useLoadData], [loading] true goes
    with [error] null: every run starts with [setError(null)] and an error
    is only ever set together with [loading] false. *)
Theorem loading_implies_no_error tr :
  loading (slots (run tr (@init T))) = true ->
  error (slots (run tr init)) = None.
Proof.
  induction tr as [|ev tr IH] using rev_ind; [reflexivity|].
  rewrite load_run_snoc. apply loading_without_error_step. exact IH.
Qed.

(** X3. [useLoadData] keeps [data] across loads that fail: as long as no
    promise that is waited for, or started later, is fulfilled, [data]
    stays exactly as the last successful load left it, however many runs
    start, are rejected, throw on the call or are cleaned up. *)
Theorem data_survives_failed_reloads tr h :
  (forall i a v, effects h !! i = Some a -> inflight a <> Some (Fulfilled v)) ->
  Forall (fun ev => match ev with
                    | Start (Async (Fulfilled _)) => False
                    | _ => True
                    end) tr ->
  data (slots (run tr h)) = data (slots h).
Proof.
  revert h. induction tr as [|ev tr IH]; intros h Hinv Htr; [reflexivity|].
  inversion Htr as [|? ? Hev Hrest]; subst.
  destruct (failing_step ev h Hinv Hev) as [Hinv' Hd].
  rewrite load_run_cons, (IH _ Hinv' Hrest). exact Hd.
Qed.

(** The latest run, mounted and waiting: the cells before and after its
    promise settles. *)
Lemma settle_current_load tr a p :
  let h := run tr (@init T) in
  let i := length (effects h) - 1 in
  effects h !! i = Some a -> isMounted a = true -> inflight a = Some p ->
  loading (slots h) = true /\ error (slots h) = None /\
  slots (step (Settle i) h) =
    match p with
    | Fulfilled v => {| data := Some v; loading := false; error := None |}
    | Rejected e =>
        {| data := data (slots h); loading := false;
           error := Some (errorMessage e) |}
    end.
Proof.
  intros h i Hl Hm Hp.
  destruct (load_invariants_run tr init only_latest_mounted_init pending_clean_init)
    as [_ Hclean].
  destruct (Hclean a p Hl Hm Hp) as [Hload Herr].
  split; [exact Hload|]. split; [exact Herr|].
  fold h in Herr. simpl. fold h i. rewrite Hl, Hp. simpl. rewrite Hm.
  destruct p as [v|e]; simpl; [rewrite Herr|]; reflexivity.
Qed.

(** X4. When the most recently started run of [useLoadData] is still
    mounted and its promise settles, the hook ends with [loading] false
    and, for a fulfilment with [v], [data = v] and [error] null; for a
    rejection, [error] the message of the [Error] (or ['Failed to fetch
    data']) and [data] as it was. *)
Theorem current_load_outcome tr a p :
  let h := run tr (@init T) in
  let i := length (effects h) - 1 in
  effects h !! i = Some a -> isMounted a = true -> inflight a = Some p ->
  slots (step (Settle i) h) =
    match p with
    | Fulfilled v => {| data := Some v; loading := false; error := None |}
    | Rejected e =>
        {| data := data (slots h); loading := false;
           error := Some (errorMessage e) |}
    end.
Proof.
  intros h i Hl Hm Hp. apply (settle_current_load tr a p Hl Hm Hp).
Qed.

End UseLoadDataTraces.

Section UseLoadDataViews.
Import UseLoadData DipView.
Context {U : Type}.

(** X5. [UserList] (and [MenuList]) on top of [useLoadData]: while the
    most recently started run waits for its promise the component shows
    the loading text; once that promise settles it shows the loaded items,
    or the error message.  A rejection whose message is the empty string
    (as of [new Error()]) is not shown as an error: the list appears, with
    the items loaded before, if any. *)
Theorem list_view_of_current_load tr a p :
  let h := run tr (@init (list U)) in
  let i := length (effects h) - 1 in
  effects h !! i = Some a -> isMounted a = true -> inflight a = Some p ->
  UserList (slots h) = LoadingText /\
  UserList (slots (step (Settle i) h)) =
    match p with
    | Fulfilled users => ItemList users
    | Rejected e =>
        if String.eqb (errorMessage e) EmptyString
        then ItemList (default [] (data (slots h)))
        else ErrorText (errorMessage e)
    end.
Proof.
  intros h i Hl Hm Hp.
  destruct (settle_current_load tr a p Hl Hm Hp) as (Hload & Herr & Hs).
  fold h i in Hload, Herr, Hs. split.
  - unfold UserList, render. rewrite Hload. reflexivity.
  - rewrite Hs. unfold UserList, render. destruct p as [users|e]; simpl.
    + reflexivity.
    + destruct (String.eqb (errorMessage e) EmptyString); reflexivity.
Qed.

End UseLoadDataViews.

Section UseLoadDataTraceExamples.
Import UseLoadData DipView.

Lemma superseded_load_never_writes_witness :
  let tr := [Start (Async (Fulfilled 1)); Start (Async (Fulfilled 2))] in
  1 < length (effects (run tr init)) /\
  slots (step (Settle 0) (run tr init)) =
    {| data := None; loading := true; error := None |}.
Proof.
  intros tr.
  assert (Hlt : 1 < length (effects (run tr init))) by (simpl; lia).
  split; [exact Hlt|].
  exact (superseded_load_never_writes tr 0 Hlt).
Defined.

Lemma loading_implies_no_error_witness :
  let tr := [Start (Async (Rejected (ErrorObj "Error" "Network response was not ok")));
             Settle 0; Start (Async (Fulfilled 2))] in
  loading (slots (run tr init)) = true /\ error (slots (run tr init)) = None.
Proof.
  intros tr. split; [reflexivity|].
  exact (loading_implies_no_error tr eq_refl).
Defined.

Lemma data_survives_failed_reloads_witness :
  let h := run [Start (Async (Fulfilled 7)); Settle 0] init in
  let failing := Rejected (ErrorObj "Error" "Network response was not ok") in
  let tr := [Start (Async failing); Settle 1;
             Start (ThrowsSync (NonError JNull)); Stop] in
  data (slots h) = Some 7 /\
  error (slots (run tr h)) = Some "Failed to fetch data" /\
  data (slots (run tr h)) = Some 7.
Proof.
  intros h failing tr. split; [reflexivity|]. split; [reflexivity|].
  apply (data_survives_failed_reloads tr h).
  - intros i a v Hl.
    destruct i as [|[|i]]; simpl in Hl; [injection Hl as <-|discriminate|discriminate].
    discriminate.
  - repeat constructor.
Defined.

Lemma current_load_outcome_witness :
  let failing := Rejected (ErrorObj "Error" "Network response was not ok") in
  let tr := [Start (Async (Fulfilled 7)); Settle 0; Start (Async failing)] in
  slots (step (Settle 1) (run tr init)) =
    {| data := Some 7; loading := false;
       error := Some "Network response was not ok" |}.
Proof.
  intros failing tr.
  exact (current_load_outcome tr {| isMounted := true; inflight := Some failing |}
           failing eq_refl eq_refl eq_refl).
Defined.

Lemma list_view_of_current_load_witness :
  let silent := @Rejected (list nat) (ErrorObj "Error" EmptyString) in
  let tr := [Start (Async (Fulfilled [1; 2])); Settle 0; Start (Async silent)] in
  UserList (slots (run tr init)) = LoadingText /\
  UserList (slots (step (Settle 1) (run tr init))) = ItemList [1; 2].
Proof.
  intros silent tr.
  exact (list_view_of_current_load tr
           {| isMounted := true; inflight := Some silent |}
           silent eq_refl eq_refl eq_refl).
Defined.

End UseLoadDataTraceExamples.

(** * Further properties of useQuery *)

Section UseQueryTraces.
Import UseQuery.
Context {T : Type}.
Implicit Types (h : Hook T) (q : QueryResult T) (a : Activation T).
Implicit Types (l : list (Activation T)) (tr : list (Event T)).

Lemma abort_abort a : abort (abort a) = abort a.
Proof. reflexivity. Qed.

Lemma cleanup_cleanup l : cleanup (cleanup l) = cleanup l.
Proof.
  unfold cleanup. rewrite length_alter, list_alter_alter_eq.
  apply list_alter_ext; [|reflexivity]. intros a _. apply abort_abort.
Qed.

(** Every run but the latest has been aborted. *)
Lemma all_but_latest_aborted_step ev h :
  (forall i a, effects h !! i = Some a ->
               S i < length (effects h) -> aborted a = true) ->
  forall i a, effects (step ev h) !! i = Some a ->
              S i < length (effects (step ev h)) -> aborted a = true.
Proof.
  intros Hinv. destruct ev as [f| |j]; intros i a Hl Hlt; simpl in *.
  - rewrite length_app, cleanup_length in Hlt. simpl in Hlt.
    rewrite lookup_app_l in Hl by (rewrite cleanup_length; lia).
    rewrite cleanup_lookup in Hl. case_decide as Hi.
    + destruct (effects h !! i) as [b|]; [|discriminate].
      simpl in Hl. injection Hl as <-. reflexivity.
    + apply (Hinv i a Hl). lia.
  - rewrite cleanup_length in Hlt.
    rewrite cleanup_lookup in Hl. case_decide as Hi; [lia|].
    apply (Hinv i a Hl Hlt).
  - destruct (effects h !! j) as [b|] eqn:Hj; [|exact (Hinv i a Hl Hlt)].
    destruct (inflight b) as [s|] eqn:Hb; [|exact (Hinv i a Hl Hlt)].
    simpl in *. rewrite length_insert in Hlt.
    destruct (decide (j = i)) as [->|Hne].
    + rewrite list_lookup_insert_eq in Hl by (eapply lookup_lt_Some, Hj).
      injection Hl as <-. simpl. apply (Hinv i b Hj Hlt).
    + rewrite list_lookup_insert_ne in Hl by exact Hne.
      apply (Hinv i a Hl Hlt).
Qed.

Lemma query_run_snoc tr ev h : run (tr ++ [ev]) h = step ev (run tr h).
Proof. unfold run. rewrite fold_left_app. reflexivity. Qed.

(** X6. Running the cleanup of [useQuery] again changes nothing more: it
    never touches the three cells, and a second [abort()] of the same
    controller leaves the runs as the first one left them; with no run at
    all it does nothing. *)
Theorem stop_is_idempotent h :
  slots (step Stop h) = slots h /\
  step Stop (step Stop h) = step Stop h /\
  step Stop init = @init T.
Proof.
  split; [reflexivity|]. split; [|reflexivity].
  simpl. rewrite cleanup_cleanup. reflexivity.
Qed.

(** X7. Whatever happened to the hook before (runs aborted, failed or
    still waiting), a new run of the effect whose promise is then
    fulfilled with [v] ends with [loading] false, [data = v] and no
    errors; one that is rejected with anything but an [AbortError] ends
    with [data] null and the one message. *)
Theorem fresh_run_settles_normally h settle :
  slots (step (Settle (length (effects h))) (step (Start (Async settle)) h)) =
    match settle false with
    | Fulfilled v => {| loading := false; data := Some v; errors := [] |}
    | Rejected e =>
        if is_AbortError e
        then {| loading := false; data := data (slots h);
                errors := errors (slots h) |}
        else {| loading := false; data := None; errors := [errorMessage e] |}
    end.
Proof.
  simpl.
  replace (length (effects h)) with (length (cleanup (effects h)) + 0) at 1
    by (rewrite cleanup_length; lia).
  rewrite lookup_app_r by lia.
  replace (length (cleanup (effects h)) + 0 - length (cleanup (effects h)))
    with 0 by lia.
  cbn [lookup list_lookup inflight aborted slots].
  destruct (settle false) as [v|e]; [reflexivity|].
  rewrite resume_rejected. destruct (is_AbortError e); reflexivity.
Qed.

(** X8. At every observable point of [useQuery] at most one run has a
    signal that is not aborted, the most recently started one: each re-run
    of the effect aborts the controller of the run before. *)
Theorem at_most_one_live_run tr i a :
  effects (run tr (@init T)) !! i = Some a ->
  S i < length (effects (run tr init)) ->
  aborted a = true.
Proof.
  revert i a. induction tr as [|ev tr IH] using rev_ind; intros i a.
  - discriminate.
  - rewrite query_run_snoc. apply all_but_latest_aborted_step. exact IH.
Qed.

End UseQueryTraces.

Section UseQueryTraceExamples.
Import UseQuery Samples.

Lemma at_most_one_live_run_witness :
  let tr := [Start (Async (deaf 1)); Start (Async (deaf 2));
             Start (Async (deaf 3))] in
  effects (run tr init) !! 1 =
    Some {| aborted := true; inflight := Some (deaf 2) |} /\
  2 < length (effects (run tr init)) /\
  aborted {| aborted := true; inflight := Some (deaf 2) |} = true.
Proof.
  intros tr.
  assert (Hlt : 2 < length (effects (run tr init))) by (simpl; lia).
  split; [reflexivity|]. split; [exact Hlt|].
  exact (at_most_one_live_run tr 1 _ eq_refl Hlt).
Defined.

End UseQueryTraceExamples.

(** * Further properties of useGetUser and of the fetchers *)

Section UseGetUserTraces.
Import Fetchers UseGetUser.

Lemma user_run_cons ev tr h : run (ev :: tr) h = run tr (step ev h).
Proof. reflexivity. Qed.

Lemma loadUsers_resume_loading p q :
  loading (fst (loadUsers_resume p q)) = false.
Proof.
  destruct p as [v|e]; [reflexivity|].
  rewrite loadUsers_resume_rejected. destruct (is_AbortError e); reflexivity.
Qed.

Lemma loading_stays_false_step ev h :
  loading (slots h) = false -> loading (slots (step ev h)) = false.
Proof.
  intros Hl. destruct ev as [net| |j]; simpl; try exact Hl.
  destruct (effects h !! j) as [b|]; [|exact Hl].
  destruct (inflight b) as [net|]; [|exact Hl].
  cbn [slots]. apply loadUsers_resume_loading.
Qed.

(** X10. [useGetUser] sets [loading] to false when a run settles (also
    when it was aborted) and never sets it to true: once [loading] is
    false it stays false, whatever runs and settles afterwards. *)
Theorem loading_never_returns tr h :
  loading (slots h) = false -> loading (slots (run tr h)) = false.
Proof.
  revert h. induction tr as [|ev tr IH]; intros h Hl; [exact Hl|].
  rewrite user_run_cons. apply IH, loading_stays_false_step, Hl.
Qed.

Lemma user_cells_step ev h :
  (errors (slots h) = [] \/
   (data (slots h) = JArr [] /\ exists m, errors (slots h) = [m])) ->
  errors (slots (step ev h)) = [] \/
  (data (slots (step ev h)) = JArr [] /\ exists m, errors (slots (step ev h)) = [m]).
Proof.
  intros Hc. destruct ev as [net| |j]; simpl; try exact Hc.
  destruct (effects h !! j) as [b|]; [|exact Hc].
  destruct (inflight b) as [net|]; [|exact Hc].
  cbn [slots]. destruct (fetchUsers (net (aborted b))) as [v|e].
  - left. reflexivity.
  - rewrite loadUsers_resume_rejected. destruct (is_AbortError e); simpl.
    + exact Hc.
    + right. eauto.
Qed.

(** X11. At every observable point of [useGetUser], [errors] is empty, or
    it holds exactly one message and [data] is the empty array: a failed
    fetch replaces the users loaded before, a successful one clears the
    errors. *)
Theorem errors_go_with_empty_data tr :
  let q := slots (run tr init) in
  errors q = [] \/ (data q = JArr [] /\ exists m, errors q = [m]).
Proof.
  assert (H : forall h,
    (errors (slots h) = [] \/
     (data (slots h) = JArr [] /\ exists m, errors (slots h) = [m])) ->
    errors (slots (run tr h)) = [] \/
    (data (slots (run tr h)) = JArr [] /\
     exists m, errors (slots (run tr h)) = [m])).
  { induction tr as [|ev tr IH]; intros h Hc; [exact Hc|].
    rewrite user_run_cons. apply IH, user_cells_step, Hc. }
  apply H. left. reflexivity.
Qed.

(** X12. Moving the request out of the hook kept its behaviour: for every
    way [fetch] can settle (failure, any status, any body, a body that does
    not parse), the [useGetUser] that fetches on its own leaves the cells
    and completes exactly as the [useGetUser] that calls [fetchUsers]. *)
Theorem inline_and_extracted_fetch_agree net q :
  UseGetUserInline.fetchUsers_resume net q =
    loadUsers_resume (fetchUsers net) q.
Proof.
  unfold UseGetUserInline.fetchUsers_resume, loadUsers_resume, fetchUsers,
    try_catch_finally, bind.
  destruct net as [r|e]; simpl; [|reflexivity].
  destruct (ok r); simpl; [|reflexivity].
  destruct (json r) as [payload|e]; simpl; [|reflexivity].
  destruct (isArray payload); simpl; [reflexivity|].
  destruct payload; reflexivity.
Qed.

(** X13. [fetchUsers] hands the rejection of [fetch] on unchanged, so the
    fetcher that [useQuery(fetchUsers)] runs honours the abort signal
    whenever [fetch] does: once aborted, its promise rejects with the
    [AbortError], which [loadData] drops. *)
Theorem fetchUsers_honours_abort (net : bool -> Settlement Response) :
  (exists message, net true = Rejected (ErrorObj "AbortError" message)) ->
  UseQuery.honours (fun signal_aborted => fetchUsers (net signal_aborted)).
Proof.
  intros [message Hnet]. exists message. rewrite Hnet. reflexivity.
Qed.

(** X14. What [fetchUsers] can make of a response with [ok] true whose
    body parses: it rejects (with a [TypeError]) exactly for the body
    [null]; otherwise it resolves, and the value is an array unless the
    body is an object whose [data] property is truthy and not an array, in
    which case it is that property. *)
Theorem fetchUsers_results r payload :
  ok r = true -> json r = Fulfilled payload ->
  match fetchUsers (Fulfilled r) with
  | Rejected e =>
      (payload = JNull \/ payload = JUndefined) /\
      exists message, e = ErrorObj "TypeError" message
  | Fulfilled v =>
      payload <> JNull /\
      (isArray v = true \/
       exists props, payload = JObj props /\ v = lookup_prop "data" props /\
                     truthy v = true)
  end.
Proof.
  intros Hok Hjs. rewrite (fetchUsers_ok r payload Hok Hjs).
  destruct payload as [| |b|n|s|items|props]; simpl;
    try (split; [discriminate|left; reflexivity]).
  - split; [right; reflexivity|eauto].
  - split; [left; reflexivity|eauto].
  - split; [discriminate|]. unfold or_else.
    destruct (truthy (lookup_prop "data" props)) eqn:Ht.
    + right. exists props. auto.
    + left. reflexivity.
Qed.

End UseGetUserTraces.

Section UseGetUserTraceExamples.
Import Fetchers UseGetUser Samples.

Lemma loading_never_returns_witness :
  let gone := fun _ : bool =>
    @Rejected Response (ErrorObj "AbortError" "The operation was aborted.") in
  let h := run [Start gone; Stop; Start (fun _ => Fulfilled (ok_response (JArr [alice])));
                Settle 0] init in
  loading (slots h) = false /\
  effects h !! 1 =
    Some {| aborted := false;
            inflight := Some (fun _ => Fulfilled (ok_response (JArr [alice]))) |} /\
  loading (slots (run [Stop; Start gone] h)) = false.
Proof.
  intros gone h. split; [reflexivity|]. split; [reflexivity|].
  exact (loading_never_returns [Stop; Start gone] h eq_refl).
Defined.

Lemma fetchUsers_honours_abort_witness :
  let net := fun signal_aborted : bool =>
    if signal_aborted
    then Rejected (ErrorObj "AbortError" "The operation was aborted.")
    else Fulfilled (ok_response (JArr [alice])) in
  UseQuery.honours (fun signal_aborted => fetchUsers (net signal_aborted)).
Proof.
  intros net.
  exact (fetchUsers_honours_abort net
           (ex_intro _ "The operation was aborted." eq_refl)).
Defined.

Lemma fetchUsers_results_witness :
  let paged := JObj [("data", JObj [("total", JNum 0)])] in
  paged <> JNull /\
  (isArray (JObj [("total", JNum 0)]) = true \/
   exists props, paged = JObj props /\
                 JObj [("total", JNum 0)] = lookup_prop "data" props /\
                 truthy (JObj [("total", JNum 0)]) = true).
Proof.
  intros paged.
  exact (fetchUsers_results (ok_response paged) paged eq_refl eq_refl).
Defined.

End UseGetUserTraceExamples.

(** * Properties of MenuApiService *)

Section MenuFacts.
Import Fetchers Menus.

(** Any printer of the numbers beyond the safe integers. *)
Variable big : Z -> string.

Lemma getMenus_ok r payload :
  ok r = true -> json r = Fulfilled payload ->
  getMenus big (Fulfilled r) =
    promise_of (snd ((sliced <- slice_0_5 payload ;; map_menus big sliced)%stmt tt)).
Proof.
  intros Hok Hjs. unfold getMenus, bind; simpl. rewrite Hok, Hjs. reflexivity.
Qed.

Lemma getMenus_array r items :
  ok r = true -> json r = Fulfilled (JArr items) ->
  getMenus big (Fulfilled r) =
    promise_of
      (snd (match map_items (to_menu big) (take 5 items) tt with
            | (s, Normal menus) => (s, Normal (JArr menus))
            | (s, Throw e) => (s, Throw e)
            | (s, Return) => (s, Return)
            end)).
Proof.
  intros Hok Hjs. rewrite (getMenus_ok r _ Hok Hjs). reflexivity.
Qed.

Lemma get_property_defined (item : JsValue) key :
  item <> JNull -> item <> JUndefined ->
  exists v, get_property item key tt = (tt, Normal v).
Proof. intros Hn Hu. destruct item; simpl; try congruence; eauto. Qed.

Lemma get_property_of_defined (item : JsValue) key v :
  get_property item key tt = (tt, Normal v) ->
  item <> JNull /\ item <> JUndefined.
Proof.
  destruct item; unfold get_property, throw, ret; intros H; split; congruence.
Qed.

(** What the callback makes of one element. *)
Lemma to_menu_result item id :
  get_property item "id" tt = (tt, Normal id) ->
  exists title,
    get_property item "title" tt = (tt, Normal title) /\
    to_menu big item tt =
      match to_string big id with
      | Some shown =>
          (tt, Normal (JObj [("id", id); ("title", title);
                             ("path", JStr ("/menu/" +:+ shown))]))
      | None =>
          (tt, Throw (ErrorObj "TypeError"
                        "Cannot convert object to primitive value"))
      end.
Proof.
  intros Hid.
  destruct (get_property_of_defined item "id" id Hid) as [Hn Hu].
  destruct (get_property_defined item "title" Hn Hu) as [title Htitle].
  exists title. split; [exact Htitle|].
  unfold to_menu, bind. rewrite Hid, Htitle, Hid. unfold template.
  destruct (to_string big id); reflexivity.
Qed.

Lemma to_menu_throws item :
  item = JNull \/ item = JUndefined ->
  exists message,
    to_menu big item tt = (tt, Throw (ErrorObj "TypeError" message)).
Proof. intros [->| ->]; eexists; reflexivity. Qed.

(** The callback resolves or throws a [TypeError]. *)
Lemma to_menu_total item :
  (exists menu, to_menu big item tt = (tt, Normal menu)) \/
  (exists message,
     to_menu big item tt = (tt, Throw (ErrorObj "TypeError" message))).
Proof.
  assert (Hcase : (item = JNull \/ item = JUndefined) \/
                  (item <> JNull /\ item <> JUndefined)).
  { destruct item; first [left; tauto | right; split; discriminate]. }
  destruct Hcase as [Hbad|[Hn Hu]]; [right; apply to_menu_throws, Hbad|].
  destruct (get_property_defined item "id" Hn Hu) as [id Hid].
  destruct (to_menu_result item id Hid) as (title & _ & Hmenu).
  rewrite Hmenu. destruct (to_string big id); eauto.
Qed.

Lemma map_items_defined items :
  Forall (fun item =>
            exists id shown,
              get_property item "id" tt = (tt, Normal id) /\
              to_string big id = Some shown) items ->
  exists menus,
    map_items (to_menu big) items tt = (tt, Normal menus) /\
    length menus = length items /\
    forall i item, items !! i = Some item ->
      exists id title shown,
        get_property item "id" tt = (tt, Normal id) /\
        get_property item "title" tt = (tt, Normal title) /\
        to_string big id = Some shown /\
        menus !! i =
          Some (JObj [("id", id); ("title", title);
                      ("path", JStr ("/menu/" +:+ shown))]).
Proof.
  induction 1 as [|item items (id & shown & Hid & Hshown) _
                   (menus & Hrun & Hlen & Hall)].
  - exists []. split; [reflexivity|]. split; [reflexivity|].
    intros i item Hl. discriminate Hl.
  - destruct (to_menu_result item id Hid) as (title & Htitle & Hmenu).
    rewrite Hshown in Hmenu.
    eexists (_ :: menus). split; [|split].
    + simpl. unfold bind at 1. rewrite Hmenu.
      unfold bind at 1. rewrite Hrun. reflexivity.
    + simpl. rewrite Hlen. reflexivity.
    + intros [|i] x Hl; simpl in Hl.
      * injection Hl as <-. exists id, title, shown. auto.
      * apply (Hall i x Hl).
Qed.

Lemma map_items_throws items :
  Exists (fun item => item = JNull \/ item = JUndefined) items ->
  exists message,
    map_items (to_menu big) items tt =
      (tt, Throw (ErrorObj "TypeError" message)).
Proof.
  induction items as [|item items IH]; intros Hex; [inversion Hex|].
  destruct (to_menu_total item) as [[menu Hmenu]|[message Hm]].
  - inversion Hex as [? ? Hhere|? ? Hlater]; subst.
    + destruct (to_menu_throws item Hhere) as [message Hm]. congruence.
    + destruct (IH Hlater) as [message Hm].
      exists message. simpl. unfold bind at 1. rewrite Hmenu.
      unfold bind at 1. rewrite Hm. reflexivity.
  - exists message. simpl. unfold bind at 1. rewrite Hm. reflexivity.
Qed.

(** X15. For a response with [ok] true whose body is an array, such that
    each of the first five elements has properties (it is not [null]) and
    an [id] that converts to a string, [getMenus] resolves to one menu per
    element among the first five, in order and never more than five: the
    [id] and [title] of the element, and the path [/menu/] followed by the
    string of the [id].  Elements after the fifth are not looked at. *)
Theorem getMenus_first_five r items :
  ok r = true -> json r = Fulfilled (JArr items) ->
  Forall (fun item =>
            exists id shown,
              get_property item "id" tt = (tt, Normal id) /\
              to_string big id = Some shown) (take 5 items) ->
  exists menus,
    getMenus big (Fulfilled r) = Fulfilled (JArr menus) /\
    length menus = min 5 (length items) /\
    forall i item, take 5 items !! i = Some item ->
      exists id title shown,
        get_property item "id" tt = (tt, Normal id) /\
        get_property item "title" tt = (tt, Normal title) /\
        to_string big id = Some shown /\
        menus !! i =
          Some (JObj [("id", id); ("title", title);
                      ("path", JStr ("/menu/" +:+ shown))]).
Proof.
  intros Hok Hjs Hitems.
  destruct (map_items_defined _ Hitems) as (menus & Hrun & Hlen & Hall).
  exists menus. split; [|split].
  - rewrite (getMenus_array r _ Hok Hjs), Hrun. reflexivity.
  - rewrite Hlen. apply length_take.
  - exact Hall.
Qed.

(** X16. [getMenus] rejects, and never resolves to a partial list: with
    ['Network response was not ok'] when [ok] is false; with a
    [TypeError] when the body is not an array (an object, a string, a
    number, [null]), and when one of the first five elements of the array
    is [null]. *)
Theorem getMenus_failures r :
  (ok r = false ->
     getMenus big (Fulfilled r) =
       Rejected (ErrorObj "Error" "Network response was not ok")) /\
  (forall payload,
     ok r = true -> json r = Fulfilled payload -> isArray payload = false ->
     exists message,
       getMenus big (Fulfilled r) = Rejected (ErrorObj "TypeError" message)) /\
  (forall items,
     ok r = true -> json r = Fulfilled (JArr items) ->
     JNull ∈ take 5 items ->
     exists message,
       getMenus big (Fulfilled r) = Rejected (ErrorObj "TypeError" message)).
Proof.
  split; [|split].
  - intros Hok. unfold getMenus, bind; simpl. rewrite Hok. reflexivity.
  - intros payload Hok Hjs Harr. rewrite (getMenus_ok r _ Hok Hjs).
    destruct payload; try discriminate Harr; eexists; reflexivity.
  - intros items Hok Hjs Hnull. rewrite (getMenus_array r _ Hok Hjs).
    destruct (map_items_throws (take 5 items)) as [message Hm].
    { apply Exists_exists. exists JNull. split; [exact Hnull|left; reflexivity]. }
    exists message. rewrite Hm. reflexivity.
Qed.

End MenuFacts.

Section MenuExamples.
Import Fetchers Menus Samples.

Lemma getMenus_first_five_witness :
  let big := fun _ : Z => "1e+21" in
  let album := fun id : JsValue =>
    JObj [("userId", JNum 1); ("id", id); ("title", JStr "quidem")] in
  let items := [album (JNum 1); album (JNum (-2)); album (JStr "x3");
                album (JArr [JNum 4; JNull; JStr "a"]); album JUndefined;
                JNull; album (JObj [("toString", JNum 0)])] in
  exists menus,
    getMenus big (Fulfilled (ok_response (JArr items))) = Fulfilled (JArr menus) /\
    length menus = 5 /\
    forall i item, take 5 items !! i = Some item ->
      exists id title shown,
        get_property item "id" tt = (tt, Normal id) /\
        get_property item "title" tt = (tt, Normal title) /\
        to_string big id = Some shown /\
        menus !! i =
          Some (JObj [("id", id); ("title", title);
                      ("path", JStr ("/menu/" +:+ shown))]).
Proof.
  intros big album items.
  apply (getMenus_first_five big (ok_response (JArr items)) items eq_refl eq_refl).
  repeat constructor; do 2 eexists; split; reflexivity.
Defined.

(** The paths of that list, and an [id] that cannot be converted. *)
Lemma getMenus_paths :
  let big := fun _ : Z => "1e+21" in
  let album := fun id : JsValue =>
    JObj [("userId", JNum 1); ("id", id); ("title", JStr "quidem")] in
  let path := fun id : JsValue =>
    JObj [("id", id); ("title", JStr "quidem")] in
  getMenus big (Fulfilled (ok_response
    (JArr [album (JNum 1); album (JNum (-2)); album (JStr "x3");
           album (JArr [JNum 4; JNull; JStr "a"]); album JUndefined]))) =
  Fulfilled (JArr
    [JObj [("id", JNum 1); ("title", JStr "quidem"); ("path", JStr "/menu/1")];
     JObj [("id", JNum (-2)); ("title", JStr "quidem"); ("path", JStr "/menu/-2")];
     JObj [("id", JStr "x3"); ("title", JStr "quidem"); ("path", JStr "/menu/x3")];
     JObj [("id", JArr [JNum 4; JNull; JStr "a"]); ("title", JStr "quidem");
           ("path", JStr "/menu/4,,a")];
     JObj [("id", JUndefined); ("title", JStr "quidem");
           ("path", JStr "/menu/undefined")]]) /\
  getMenus big (Fulfilled (ok_response
    (JArr [album (JObj [("toString", JNum 0)])]))) =
  Rejected (ErrorObj "TypeError" "Cannot convert object to primitive value").
Proof. split; reflexivity. Qed.

Lemma getMenus_failures_witness :
  let big := fun _ : Z => "1e+21" in
  getMenus big (Fulfilled not_found) =
    Rejected (ErrorObj "Error" "Network response was not ok") /\
  (exists message,
     getMenus big (Fulfilled (ok_response (JObj [("data", JArr [])]))) =
       Rejected (ErrorObj "TypeError" message)) /\
  (exists message,
     getMenus big (Fulfilled (ok_response (JArr [alice; JNull]))) =
       Rejected (ErrorObj "TypeError" message)).
Proof.
  intros big. split; [|split].
  - exact (proj1 (getMenus_failures big not_found) eq_refl).
  - exact (proj1 (proj2 (getMenus_failures big
                           (ok_response (JObj [("data", JArr [])]))))
             _ eq_refl eq_refl eq_refl).
  - apply (proj2 (proj2 (getMenus_failures big (ok_response (JArr [alice; JNull]))))
             _ eq_refl eq_refl).
    simpl. apply list_elem_of_further, list_elem_of_here.
Defined.

End MenuExamples.

(** * Properties of the logger, the uploader and the button themes *)

Section IspFacts.
Import Isp.

Lemma perform_mirrors c d : logs (fst (perform c d)) = _logs (fst (perform c d)).
Proof. destruct c; reflexivity. Qed.

Lemma perform_pushes c d :
  c <> Logger_clear ->
  length (_logs (fst (perform c d))) = S (length (_logs d)).
Proof.
  intros Hc. destruct c; try congruence; simpl;
    rewrite length_app; simpl; lia.
Qed.

Lemma isp_run_cons c calls d : run (c :: calls) d = run calls (fst (perform c d)).
Proof. reflexivity. Qed.

Lemma isp_run_app calls1 calls2 d :
  run (calls1 ++ calls2) d = run calls2 (run calls1 d).
Proof. apply fold_left_app. Qed.

Lemma run_mirrors calls d :
  logs d = _logs d -> logs (run calls d) = _logs (run calls d).
Proof.
  revert d. induction calls as [|c calls IH]; intros d Hd; [exact Hd|].
  rewrite isp_run_cons. apply IH, perform_mirrors.
Qed.

Lemma run_counts calls d :
  Forall (fun c => c <> Logger_clear) calls ->
  length (_logs (run calls d)) = length (_logs d) + length calls.
Proof.
  revert d. induction calls as [|c calls IH]; intros d Hc; simpl; [lia|].
  inversion Hc; subst. fold (run calls (fst (perform c d))).
  rewrite IH by assumption. rewrite perform_pushes by assumption. lia.
Qed.

(** X17. In the ISP demo the list shown always equals the list the
    [ConsoleLogger] holds.  After a [clear], whatever was logged before is
    gone: the logger and the list shown are as the calls made since would
    have left them on their own, with one line per call. *)
Theorem shown_logs_follow_logger calls pre post :
  Forall (fun c => c <> Logger_clear) post ->
  logs (run calls init) = _logs (run calls init) /\
  run (pre ++ Logger_clear :: post) init = run post init /\
  length (logs (run post init)) = length post.
Proof.
  intros Hpost. split; [|split].
  - apply run_mirrors. reflexivity.
  - rewrite isp_run_app, isp_run_cons. reflexivity.
  - rewrite run_mirrors by reflexivity.
    rewrite run_counts by exact Hpost. reflexivity.
Qed.

End IspFacts.

Section UploadFacts.
Import Upload.

(** X18. [handleUpload] uploads the first selected file only, whatever
    else was selected, with any storage provider.  With each of the three
    providers of the repository it prints the provider's line with the
    name of that file and then ['Uploaded to:'] with the provider's prefix
    followed by the name. *)
Theorem only_first_file_is_uploaded f rest c :
  (forall storage : StorageProvider,
      handleUpload storage (Some (f :: rest)) c =
      handleUpload storage (Some [f]) c) /\
  handleUpload LocalStorageProvider (Some (f :: rest)) c =
    ((c ++ [["Saving locally:"; name f];
            ["Uploaded to:"; "/uploads/" +:+ name f]])%list, Normal tt) /\
  handleUpload S3StorageProvider (Some (f :: rest)) c =
    ((c ++ [["Uploading to S3:"; name f];
            ["Uploaded to:"; "https://s3.amazonaws.com/bucket/" +:+ name f]])%list,
     Normal tt) /\
  handleUpload FirebaseStorageProvider (Some (f :: rest)) c =
    ((c ++ [["Uploading to Firebase:"; name f];
            ["Uploaded to:"; "https://firebase.storage/" +:+ name f]])%list,
     Normal tt).
Proof.
  split; [reflexivity|].
  unfold handleUpload, LocalStorageProvider, S3StorageProvider,
    FirebaseStorageProvider, bind, console_log; simpl.
  rewrite <- !app_assoc. simpl. auto.
Qed.

(** X19. A selection that is [null] makes [handleUpload] return without
    calling the provider.  A selection that is an empty list (which is not
    [null]) passes [undefined] to the provider: with each of the three
    providers the promise of [handleUpload] is rejected with a
    [TypeError], and nothing is printed. *)
Theorem empty_selection_rejects c :
  (forall storage : StorageProvider, handleUpload storage None c = (c, Return)) /\
  let failure :=
    (c, @Throw unit (ErrorObj "TypeError"
                       "Cannot read properties of undefined (reading 'name')")) in
  handleUpload LocalStorageProvider (Some []) c = failure /\
  handleUpload S3StorageProvider (Some []) c = failure /\
  handleUpload FirebaseStorageProvider (Some []) c = failure.
Proof. repeat split. Qed.

End UploadFacts.

Section ButtonThemeFacts.
Import ButtonTheme.

(** X20. A variant looked up in a merged theme is the style the custom
    theme gives it, else the style the base theme gives it, else
    [undefined] (for a name that [Object.prototype] does not define).  No
    variant at all and the empty name give [undefined] in every theme.
    Merging nothing gives the base theme, which is the default theme when
    none is passed. *)
Theorem merged_theme_lookup (custom base : ButtonTheme) v :
  v <> EmptyString -> v ∉ Object_prototype ->
  getVariantStyle (Some v) (mergeButtonThemes (Some custom) (Some base)) =
    match custom !! v with
    | Some style => Own style
    | None =>
        match base !! v with
        | Some style => Own style
        | None => Undefined
        end
    end /\
  getVariantStyle None (mergeButtonThemes (Some custom) (Some base)) = Undefined /\
  getVariantStyle (Some EmptyString) (mergeButtonThemes (Some custom) (Some base)) =
    Undefined /\
  mergeButtonThemes None (Some base) = base /\
  mergeButtonThemes None None = DEFAULT_BUTTON_THEME /\
  mergeButtonThemes (Some custom) None =
    mergeButtonThemes (Some custom) (Some DEFAULT_BUTTON_THEME).
Proof.
  intros Hv Hproto.
  split; [|split; [reflexivity|split; [reflexivity|split; [|split; [|reflexivity]]]]].
  - unfold getVariantStyle, mergeButtonThemes; simpl.
    apply String.eqb_neq in Hv. rewrite Hv.
    rewrite lookup_union.
    destruct (custom !! v) as [s|], (base !! v) as [s'|]; simpl; try reflexivity.
    rewrite bool_decide_eq_false_2 by exact Hproto. reflexivity.
  - unfold mergeButtonThemes; simpl. apply (left_id_L ∅ (∪)).
  - unfold mergeButtonThemes; simpl. apply (left_id_L ∅ (∪)).
Qed.

End ButtonThemeFacts.

Section MoreExamples.
Import Samples.

Lemma shown_logs_follow_logger_witness :
  let pre := [Isp.Fat_playVideo; Isp.Audio_playAudio] in
  let post := [Isp.Video_loadMedia "movie.mp4"; Isp.Subtitle_displaySubtitles] in
  Isp.logs (Isp.run (pre ++ post) Isp.init) =
    Isp._logs (Isp.run (pre ++ post) Isp.init) /\
  Isp.run (pre ++ Isp.Logger_clear :: post) Isp.init = Isp.run post Isp.init /\
  length (Isp.logs (Isp.run post Isp.init)) = 2.
Proof.
  intros pre post.
  apply (shown_logs_follow_logger (pre ++ post) pre post).
  repeat constructor; discriminate.
Defined.

Lemma merged_theme_lookup_witness :
  let info := {| ButtonTheme.backgroundColor := "#17a2b8";
                 ButtonTheme.color := "#white";
                 ButtonTheme.hoverBackgroundColor := Some "#138496";
                 ButtonTheme.activeBackgroundColor := None |} in
  let custom : gmap string ButtonTheme.ButtonVariantStyle := {[ "info" := info ]} in
  ButtonTheme.getVariantStyle (Some "info")
    (ButtonTheme.mergeButtonThemes (Some custom)
       (Some ButtonTheme.DEFAULT_BUTTON_THEME)) = ButtonTheme.Own info.
Proof.
  intros info custom.
  assert (Hv : "info" <> EmptyString) by discriminate.
  assert (Hp : "info" ∉ ButtonTheme.Object_prototype).
  { intros Hin. apply list_elem_of_In in Hin. simpl in Hin.
    repeat (destruct Hin as [Hin|Hin]; [discriminate Hin|]). exact Hin. }
  destruct (merged_theme_lookup custom ButtonTheme.DEFAULT_BUTTON_THEME "info" Hv Hp)
    as [H _].
  rewrite H. reflexivity.
Defined.

End MoreExamples.

(** * Properties of the modal *)

Section ModalFacts.
Import Modal.

Lemma modal_run_snoc evs ev w : run (evs ++ [ev]) w = step ev (run evs w).
Proof. unfold run. rewrite fold_left_app. reflexivity. Qed.

(** The listeners only ever add to [closed]. *)
Lemma keydown_calls key l w :
  let w' := fold_left (fun w id =>
                         if String.eqb key ESCAPE then call_onClose id w else w)
                      l w in
  overflow w' = overflow w /\ listeners w' = listeners w /\
  rendered w' = rendered w /\ esc_cleanup w' = esc_cleanup w /\
  overflow_cleanup w' = overflow_cleanup w /\
  closed w' = (closed w ++ if String.eqb key ESCAPE then l else [])%list.
Proof.
  revert w. induction l as [|id l IH]; intros w; simpl.
  - destruct (String.eqb key ESCAPE); rewrite app_nil_r; repeat split.
  - destruct (IH (if String.eqb key ESCAPE then call_onClose id w else w))
      as (H1 & H2 & H3 & H4 & H5 & H6).
    rewrite H1, H2, H3, H4, H5, H6.
    destruct (String.eqb key ESCAPE); simpl; [|repeat split].
    rewrite <- app_assoc. repeat split.
Qed.

Lemma remove_first_single id : remove_first id [id] = [].
Proof. simpl. rewrite Nat.eqb_refl. reflexivity. Qed.

Lemma coherent_render p w : coherent w -> coherent (step (Render p) w).
Proof.
  destruct w as [o ls cs r ec oc]. unfold coherent, shown. simpl.
  intros (-> & -> & ->).
  unfold esc_deps_changed, overflow_deps_changed; simpl.
  destruct r as [q|]; simpl.
  - destruct (Nat.eqb_spec (onClose q) (onClose p)) as [Heq|Hne];
      unfold cleanup_esc, cleanup_overflow, effect_esc, effect_overflow;
      destruct (isOpen q), (isOpen p), (closeOnEsc_of q), (closeOnEsc_of p);
      simpl; rewrite ?Nat.eqb_refl; rewrite ?Heq; auto.
  - unfold cleanup_esc, cleanup_overflow, effect_esc, effect_overflow; simpl.
    destruct (isOpen p), (closeOnEsc_of p); simpl; auto.
Qed.

Lemma coherent_step ev w : coherent w -> coherent (step ev w).
Proof.
  destruct ev as [p| |key|on_overlay|]; [apply coherent_render| | | |].
  - destruct w as [o ls cs r ec oc]. unfold coherent, shown. simpl.
    intros (-> & -> & ->).
    unfold cleanup_esc, cleanup_overflow; simpl.
    destruct r as [q|]; simpl; [|auto].
    destruct (isOpen q), (closeOnEsc_of q); simpl; rewrite ?Nat.eqb_refl; auto.
  - intros (H1 & H2 & H3). unfold coherent, shown. simpl.
    destruct (keydown_calls key (listeners w) w) as (_ & K2 & K3 & K4 & K5 & _).
    rewrite K2, K3, K4, K5. auto.
  - intros Hc. simpl. destruct (rendered w) as [p|] eqn:Hr; [|exact Hc].
    destruct (isOpen p && (closeOnBackdropClick_of p && on_overlay));
      [|exact Hc].
    destruct w; exact Hc.
  - intros Hc. simpl. destruct (rendered w) as [p|] eqn:Hr; [|exact Hc].
    destruct (isOpen p); [|exact Hc]. destruct w; exact Hc.
Qed.

Lemma coherent_run overflow0 evs : coherent (run evs (init overflow0)).
Proof.
  induction evs as [|ev evs IH] using rev_ind.
  - repeat split.
  - rewrite modal_run_snoc. apply coherent_step, IH.
Qed.

Lemma ever_open_snoc evs ev :
  ever_open (evs ++ [ev]) =
    ever_open evs || match ev with Render p => isOpen p | _ => false end.
Proof. unfold ever_open. rewrite existsb_app. simpl. rewrite orb_false_r. reflexivity. Qed.

Lemma render_overflow p w :
  overflow_cleanup w = shown w ->
  shown (step (Render p) w) = isOpen p /\
  overflow (step (Render p) w) =
    if isOpen p then (if shown w then overflow w else "hidden")
    else (if shown w then "unset" else overflow w).
Proof.
  destruct w as [o ls cs r ec oc]. unfold shown. simpl. intros ->.
  split; [reflexivity|].
  unfold esc_deps_changed, overflow_deps_changed, cleanup_esc,
    cleanup_overflow, effect_esc, effect_overflow; simpl.
  destruct r as [q|]; simpl;
    repeat (case_match; simpl in *; subst; try discriminate);
    try reflexivity; try congruence.
Qed.

Lemma unmount_overflow w :
  overflow_cleanup w = shown w ->
  shown (step Unmount w) = false /\
  overflow (step Unmount w) = if shown w then "unset" else overflow w.
Proof.
  destruct w as [o ls cs r ec oc]. unfold shown. simpl. intros ->.
  split; [reflexivity|].
  unfold cleanup_esc, cleanup_overflow; simpl.
  repeat (case_match; simpl in *; subst; try discriminate);
    try reflexivity; try congruence.
Qed.

Lemma other_events_keep_overflow ev w :
  match ev with Render _ | Unmount => False | _ => True end ->
  shown (step ev w) = shown w /\ overflow (step ev w) = overflow w.
Proof.
  destruct ev as [p| |key|on_overlay|]; intros Hev; try contradiction.
  - simpl. destruct (keydown_calls key (listeners w) w) as (K1 & _ & K3 & _).
    unfold shown. rewrite K1, K3. auto.
  - simpl. destruct (rendered w) as [p|] eqn:Hr; [|auto].
    destruct (isOpen p && (closeOnBackdropClick_of p && on_overlay)); auto.
  - simpl. destruct (rendered w) as [p|] eqn:Hr; [|auto].
    destruct (isOpen p); auto.
Qed.

Lemma scroll_lock_invariant overflow0 evs :
  let w := run evs (init overflow0) in
  (shown w = true -> ever_open evs = true) /\
  overflow w =
    if shown w then "hidden"
    else if ever_open evs then "unset" else overflow0.
Proof.
  induction evs as [|ev evs IH] using rev_ind; [split; [discriminate|reflexivity]|].
  cbv zeta in *. rewrite modal_run_snoc, ever_open_snoc.
  pose proof (coherent_run overflow0 evs) as (_ & _ & Hoc).
  destruct IH as [Hever Hov].
  set (w := run evs (init overflow0)) in *.
  destruct ev as [p| |key|on_overlay|].
  - destruct (render_overflow p w Hoc) as [-> ->]. rewrite Hov.
    destruct (isOpen p), (shown w); simpl;
      rewrite ?orb_true_r, ?orb_false_r; try rewrite (Hever eq_refl); auto.
  - destruct (unmount_overflow w Hoc) as [-> ->]. rewrite Hov, orb_false_r.
    split; [discriminate|].
    destruct (shown w); simpl; try rewrite (Hever eq_refl); auto.
  - destruct (other_events_keep_overflow (Keydown key) w I) as [-> ->].
    rewrite orb_false_r. auto.
  - destruct (other_events_keep_overflow (BackdropClick on_overlay) w I) as [-> ->].
    rewrite orb_false_r. auto.
  - destruct (other_events_keep_overflow CloseClick w I) as [-> ->].
    rewrite orb_false_r. auto.
Qed.

(** X21. The scroll lock of [Modal]: while the modal is on screen
    [document.body.style.overflow] is ["hidden"]; once it has been open
    and is closed or unmounted the value is ["unset"], not the value the
    page had before; it is that original value only as long as the modal
    has never been open. *)
Theorem body_overflow_follows_modal overflow0 evs :
  let w := run evs (init overflow0) in
  overflow w =
    if shown w then "hidden"
    else if ever_open evs then "unset" else overflow0.
Proof. apply scroll_lock_invariant. Qed.

(** X22. The Escape key and [Modal]: at every point the modal has at most
    one [keydown] listener on the document, none when it is closed,
    unmounted or rendered with [closeOnEsc] false.  A key press calls the
    [onClose] of the last render once when the key is Escape and the modal
    is open with [closeOnEsc] (true by default), and calls nothing
    otherwise. *)
Theorem escape_closes_open_modal overflow0 evs key :
  let w := run evs (init overflow0) in
  let expected :=
    match rendered w with
    | Some p => if isOpen p && closeOnEsc_of p then [onClose p] else []
    | None => []
    end in
  listeners w = expected /\
  closed (step (Keydown key) w) =
    (closed w ++ if String.eqb key ESCAPE then expected else [])%list.
Proof.
  intros w expected.
  pose proof (coherent_run overflow0 evs) as (Hec & Hls & _). fold w in Hec, Hls.
  assert (Hl : listeners w = expected).
  { rewrite Hls, Hec. unfold expected.
    destruct (rendered w) as [p|]; [|reflexivity].
    destruct (isOpen p && closeOnEsc_of p); reflexivity. }
  split; [exact Hl|].
  simpl. destruct (keydown_calls key (listeners w) w) as (_ & _ & _ & _ & _ & K).
  rewrite K, Hl. reflexivity.
Qed.

End ModalFacts.
